(** * edit_image_mask_free.py: the mask-free image edit sample

    A shallow embedding of [generative_ai/imagen/edit_image_mask_free.py]:
    the function [edit_image_mask_free] (source lines 30-64) and the
    command line entry point under [if __name__ == "__main__"] (lines
    69-99).

    The script is a straight line of calls into the Vertex AI SDK, two
    index accesses, one [print] and a [return].  It is embedded in a state
    and exception monad over a [world] holding the local files, the lines
    printed on standard output and the trace of SDK calls.  What the remote
    service answers is not fixed by the script: it is a parameter ([Sdk])
    of every definition and is universally quantified in the theorems. *)

From Stdlib Require Import ZArith String Ascii List DecimalString DecimalNat.
From Stdlib.Strings Require Import Byte.
From stdpp Require Import gmap strings list.

Open Scope string_scope.
Open Scope Z_scope.

(** ** Data model *)

Abbreviation bytes := (list Byte.byte).

(** The values the script hands on as arguments: the strings the
    command line parser stores and, in one corner of that parser, an
    empty list.  The annotations of [edit_image_mask_free] say [str], but
    nothing checks them. *)
Inductive value :=
| str (s : string)
| empty_list.

Coercion str : string >-> value.

(** [vertexai.preview.vision_models.Image]: built from the bytes of a
    local file, or from a Cloud Storage URI without reading anything. *)
Inductive Image :=
| Image_of_bytes (image_bytes : bytes)
| Image_of_gcs (gcs_uri : string).

(** [GeneratedImage]: the script reads its [_image_bytes] (line 62) and
    calls its [save] method (line 57). *)
Record GeneratedImage := { _image_bytes : bytes }.

(** [ImageGenerationResponse]: the collection returned by [edit_image]. *)
Record ImageGenerationResponse := { images : list GeneratedImage }.

(** The model object returned by [ImageGenerationModel.from_pretrained]. *)
Record ImageGenerationModel := { _endpoint_name : string }.

Inductive exception :=
| FileNotFoundError (filename : string)
| IndexError
| TypeError (message : string)
| ValueError (message : string)
| SdkError (what : string).

Inductive result (A : Type) :=
| Ok (a : A)
| Raise (e : exception).
Arguments Ok {A} a.
Arguments Raise {A} e.

(** The calls the script makes into the SDK, with their arguments. *)
Inductive call :=
| vertexai_init (project location : value)
| from_pretrained (model_name : string)
| load_from_file (location : value)
| edit_image (model : ImageGenerationModel) (base_image : Image)
    (prompt : value) (seed guidance_scale number_of_images : Z)
| getitem (response : ImageGenerationResponse) (idx : Z)
| save (image : GeneratedImage) (location : value).

(** A call is logged when it is made and again when it comes back. *)
Inductive event :=
| Invoke (c : call)
| Returned (c : call)
| Raised (c : call) (e : exception).

Record world := World {
  files : gmap string bytes;
  stdout : list string;
  trace : list event
}.

(** The state of a process that has just started. *)
Definition boot (fs : gmap string bytes) : world :=
  {| files := fs; stdout := []; trace := [] |}.

Definition set_files (w : world) (fs : gmap string bytes) : world :=
  {| files := fs; stdout := stdout w; trace := trace w |}.

Definition put_line (w : world) (line : string) : world :=
  {| files := files w; stdout := stdout w ++ [line]; trace := trace w |}.

Definition record (w : world) (e : event) : world :=
  {| files := files w; stdout := stdout w; trace := trace w ++ [e] |}.

(** What lies outside the script, and is not fixed by it:
    - the answers of the SDK operations that reach the cloud service
      ([vertexai.init], [from_pretrained], [edit_image]);
    - [sdk_gcs_uri]: the Cloud Storage URI that [Image.load_from_file]
      reads in a location (a [gs://] URI, or a
      [https://storage.googleapis.com/] URL turned into one), if it
      reads one; otherwise the location is a local path;
    - [sdk_save]: the bytes that [GeneratedImage.save] writes for an
      image at a path, unless it refuses.  It does not write the image's
      buffer as it is: it encodes the image again, with its generation
      parameters.
    Each answer may depend on everything that happened so far. *)
Record Sdk := {
  sdk_init : world -> value -> value -> result unit;
  sdk_from_pretrained : world -> string -> result ImageGenerationModel;
  sdk_gcs_uri : string -> option string;
  sdk_edit_image : world -> ImageGenerationModel -> Image -> value ->
                   Z -> Z -> Z -> result ImageGenerationResponse;
  sdk_save : world -> GeneratedImage -> string -> result bytes
}.

(** ** The monad of the script: state passing with exceptions *)

Definition M (A : Type) : Type := world -> result A * world.

Definition ret {A} (a : A) : M A := fun w => (Ok a, w).

Definition bind {A B} (m : M A) (k : A -> M B) : M B :=
  fun w =>
    match m w with
    | (Ok a, w') => k a w'
    | (Raise e, w') => (Raise e, w')
    end.

Declare Scope py_scope.
Delimit Scope py_scope with py.
Notation "x <- c ;; k" := (bind c (fun x => k))
  (at level 100, c at next level, right associativity) : py_scope.
Notation "c ;; k" := (bind c (fun _ => k))
  (at level 100, right associativity) : py_scope.

(** An SDK call: logged, answered, logged again. *)
Definition sdk_call {A} (c : call) (answer : world -> result A) : M A :=
  fun w =>
    let w1 := record w (Invoke c) in
    match answer w1 with
    | Ok a => (Ok a, record w1 (Returned c))
    | Raise e => (Raise e, record w1 (Raised c e))
    end.

(** ** Python primitives *)

(** [l[idx]] on a Python list: negative indices count from the end, an
    index out of range raises [IndexError]. *)
Definition list_getitem {A} (l : list A) (idx : Z) : result A :=
  let n := Z.of_nat (length l) in
  let i := if idx <? 0 then idx + n else idx in
  if (0 <=? i) && (i <? n) then
    match nth_error l (Z.to_nat i) with
    | Some a => Ok a
    | None => Raise IndexError
    end
  else Raise IndexError.

(** [str(n)] for a length: decimal digits, no leading zero. *)
Definition str_of_len (n : nat) : string :=
  NilZero.string_of_uint (Nat.to_uint n).

(** [print(line)]. *)
Definition print (line : string) : M unit :=
  fun w => (Ok tt, put_line w line).

Section Script.

Variable sdk : Sdk.

(** ** The SDK operations as the script sees them *)

(** [vertexai.init(project=..., location=...)]. *)
Definition init (project location : value) : M unit :=
  sdk_call (vertexai_init project location)
           (fun w => sdk_init sdk w project location).

(** [ImageGenerationModel.from_pretrained(name)]. *)
Definition ImageGenerationModel_from_pretrained (name : string)
  : M ImageGenerationModel :=
  sdk_call (from_pretrained name) (fun w => sdk_from_pretrained sdk w name).

(** What [Image.load_from_file(location=...)] answers on the files
    [fs].  A Cloud Storage location gives an image without any read.  A
    local path is read: a path that names no file raises, and so does an
    empty file, since an image is not built from an empty buffer.  A
    location that is not a string is no path at all. *)
Definition load_answer (fs : gmap string bytes) (location : value)
  : result Image :=
  match location with
  | empty_list => Raise (TypeError "expected str, bytes or os.PathLike object, not list")
  | str path =>
      match sdk_gcs_uri sdk path with
      | Some uri => Ok (Image_of_gcs uri)
      | None =>
          match fs !! path with
          | None => Raise (FileNotFoundError path)
          | Some [] => Raise (ValueError "Either image_bytes or gcs_uri must be provided.")
          | Some (b :: bs) => Ok (Image_of_bytes (b :: bs))
          end
      end
  end.

Definition Image_load_from_file (location : value) : M Image :=
  sdk_call (load_from_file location) (fun w => load_answer (files w) location).

(** [model.edit_image(base_image=..., prompt=..., seed=...,
    guidance_scale=..., number_of_images=...)]. *)
Definition model_edit_image (model : ImageGenerationModel) (base_image : Image)
    (prompt : value) (seed guidance_scale number_of_images : Z)
  : M ImageGenerationResponse :=
  sdk_call (edit_image model base_image prompt seed guidance_scale
                       number_of_images)
           (fun w => sdk_edit_image sdk w model base_image prompt seed
                                    guidance_scale number_of_images).

(** [response[idx]]: [ImageGenerationResponse.__getitem__] indexes the
    list of generated images. *)
Definition response_getitem (response : ImageGenerationResponse) (idx : Z)
  : M GeneratedImage :=
  sdk_call (getitem response idx)
           (fun _ => list_getitem (images response) idx).

(** What [image.save(location=...)] answers: the path and the bytes it
    writes there.  The save decodes the image's buffer before it writes
    anything, which an empty buffer does not allow; a location that is
    not a string is no path; otherwise the SDK says what is written, or
    refuses. *)
Definition save_answer (w : world) (image : GeneratedImage) (location : value)
  : result (string * bytes) :=
  match _image_bytes image with
  | [] => Raise (SdkError "UnidentifiedImageError")
  | _ :: _ =>
      match location with
      | empty_list => Raise (ValueError "unknown file extension: ")
      | str path =>
          match sdk_save sdk w image path with
          | Ok written => Ok (path, written)
          | Raise e => Raise e
          end
      end
  end.

(** [image.save(location=...)]: when the save is refused nothing is
    written. *)
Definition image_save (image : GeneratedImage) (location : value) : M unit :=
  fun w =>
    let w1 := record w (Invoke (save image location)) in
    match save_answer w1 image location with
    | Ok (path, written) =>
        (Ok tt, record (set_files w1 (<[path := written]> (files w1)))
                       (Returned (save image location)))
    | Raise e => (Raise e, record w1 (Raised (save image location) e))
    end.

(** ** [edit_image_mask_free] (source lines 30-64) *)

Definition edit_image_mask_free
    (project_id location input_file output_file prompt : value)
  : M ImageGenerationResponse :=
  (init project_id location ;;
   model <- ImageGenerationModel_from_pretrained "imagegeneration@002" ;;
   base_img <- Image_load_from_file input_file ;;
   images <- model_edit_image model base_img prompt 1 21 1 ;;
   first <- response_getitem images 0 ;;
   image_save first output_file ;;
   shown <- response_getitem images 0 ;;
   print ("Created output image using "
            +:+ str_of_len (length (_image_bytes shown)) +:+ " bytes") ;;
   ret images)%py.

End Script.

Arguments load_answer : simpl never.
Arguments save_answer : simpl never.

(** ** The command line (source lines 69-92)

    [argparse.ArgumentParser()] with the five [add_argument] calls of the
    script, and [parse_args()] on the argument strings [sys.argv[1:]].
    The parser follows [argparse] of CPython 3.11: every argument string
    is first classified ([_parse_optional]), then the options are consumed
    from left to right ([consume_optional]), then the required options and
    the left-over strings are checked.  Only the exit status of a
    [SystemExit] is kept, not the usage or help text that [argparse] prints
    itself.  An argument string is held as its UTF-8 bytes. *)
Module argparse.

(** What a [store] action puts in the namespace.  [take_action] passes
    the argument strings through [_get_values], which first removes an
    argument string equal to [--]; with nothing left, the value stored is
    the empty list and not a string. *)
Definition _get_values (arg_string : string) : value :=
  if String.eqb arg_string "--" then empty_list else str arg_string.

Inductive action :=
| help                       (* "-h", "--help", added by ArgumentParser() *)
| store (dest : string).     (* add_argument("--<dest>", ...) *)

(** [parser._option_string_actions], in registration order. *)
Definition option_string_actions : list (string * action) :=
  [ ("-h", help); ("--help", help);
    ("--project_id", store "project_id");
    ("--location", store "location");
    ("--input_file", store "input_file");
    ("--output_file", store "output_file");
    ("--prompt", store "prompt") ].

(** The destinations declared with [required=True]. *)
Definition required_dests : list string :=
  ["project_id"; "input_file"; "output_file"; "prompt"].

(** The declared defaults: only [--location] has one. *)
Definition defaults : gmap string value :=
  {[ "location" := str "us-central1" ]}.

Record Namespace := {
  project_id : value;
  location : value;
  input_file : value;
  output_file : value;
  prompt : value
}.

Inductive parse_result :=
| Parsed (args : Namespace)
| SystemExit (status : Z).

Definition lookup_option (s : string) : option action :=
  match List.find (fun p => String.eqb (fst p) s) option_string_actions with
  | Some p => Some (snd p)
  | None => None
  end.

(** [s.split('=', 1)] when ['=' in s]. *)
Fixpoint split_eq (s : string) : option (string * string) :=
  match s with
  | EmptyString => None
  | String c s' =>
      if Ascii.eqb c "=" then Some (EmptyString, s')
      else match split_eq s' with
           | Some (a, b) => Some (String c a, b)
           | None => None
           end
  end.

Fixpoint contains_space (s : string) : bool :=
  match s with
  | EmptyString => false
  | String c s' => Ascii.eqb c " " || contains_space s'
  end.

(** [\d] in a pattern on [str] matches the Unicode decimal digits
    (category Nd), not only [0-9].  The argument strings are kept as
    their UTF-8 bytes, so a digit may take up to four bytes.  These are
    the ranges of Nd code points of Unicode 14.0, the version of
    CPython 3.11. *)
Definition decimal_ranges : list (N * N) :=
  [(48, 57); (1632, 1641); (1776, 1785); (1984, 1993); (2406, 2415);
    (2534, 2543); (2662, 2671); (2790, 2799); (2918, 2927); (3046, 3055);
    (3174, 3183); (3302, 3311); (3430, 3439); (3558, 3567); (3664, 3673);
    (3792, 3801); (3872, 3881); (4160, 4169); (4240, 4249); (6112, 6121);
    (6160, 6169); (6470, 6479); (6608, 6617); (6784, 6793); (6800, 6809);
    (6992, 7001); (7088, 7097); (7232, 7241); (7248, 7257); (42528, 42537);
    (43216, 43225); (43264, 43273); (43472, 43481); (43504, 43513);
    (43600, 43609); (44016, 44025); (65296, 65305); (66720, 66729);
    (68912, 68921); (69734, 69743); (69872, 69881); (69942, 69951);
    (70096, 70105); (70384, 70393); (70736, 70745); (70864, 70873);
    (71248, 71257); (71360, 71369); (71472, 71481); (71904, 71913);
    (72016, 72025); (72784, 72793); (73040, 73049); (73120, 73129);
    (92768, 92777); (92864, 92873); (93008, 93017); (120782, 120831);
    (123200, 123209); (123632, 123641); (125264, 125273); (130032, 130041) ]%N.

Definition is_decimal (cp : N) : bool :=
  existsb (fun r => (fst r <=? cp)%N && (cp <=? snd r)%N) decimal_ranges.

(** Decoding UTF-8 byte by byte: between characters, or inside one with
    [remaining] continuation bytes to come, the bits read so far in [acc]
    and the least code point [low] the sequence may encode. *)
Inductive utf8_state :=
| utf8_start
| utf8_need (remaining : nat) (acc low : N).

(** A scalar value in its shortest encoding; anything else is a byte
    that decodes to no character of its own, hence to no digit. *)
Definition utf8_scalar (cp low : N) : bool :=
  (low <=? cp)%N && (cp <=? 1114111)%N
  && negb ((55296 <=? cp)%N && (cp <=? 57343)%N).

(** One byte further: [None] on a byte that cannot stand there, else the
    next state and the character completed by this byte, if any. *)
Definition utf8_step (st : utf8_state) (c : ascii)
  : option (utf8_state * option N) :=
  let b := N_of_ascii c in
  match st with
  | utf8_start =>
      if (b <? 128)%N then Some (utf8_start, Some b)
      else if (b <? 192)%N then None
      else if (b <? 224)%N then Some (utf8_need 1 (b - 192) 128, None)
      else if (b <? 240)%N then Some (utf8_need 2 (b - 224) 2048, None)
      else if (b <? 248)%N then Some (utf8_need 3 (b - 240) 65536, None)
      else None
  | utf8_need remaining acc low =>
      if (128 <=? b)%N && (b <? 192)%N then
        let acc' := (acc * 64 + (b - 128))%N in
        match remaining with
        | S (S k) => Some (utf8_need (S k) acc' low, None)
        | _ => if utf8_scalar acc' low then Some (utf8_start, Some acc')
               else None
        end
      else None
  end.

(** [\d+$] from the state [st], [seen] telling whether a digit was read:
    one or more digits up to the end of the string, or up to a final
    newline. *)
Fixpoint digits1_in (st : utf8_state) (seen : bool) (s : string) : bool :=
  match s with
  | EmptyString =>
      match st with utf8_start => seen | utf8_need _ _ _ => false end
  | String c s' =>
      match utf8_step st c with
      | None => false
      | Some (st', None) => digits1_in st' seen s'
      | Some (st', Some cp) =>
          if is_decimal cp then digits1_in st' true s'
          else seen && (cp =? 10)%N
               && match s' with EmptyString => true | _ => false end
      end
  end.

Definition digits1 (s : string) : bool := digits1_in utf8_start false s.

(** [\d*\.\d+$]. *)
Fixpoint digits_dot_digits_in (st : utf8_state) (s : string) : bool :=
  match s with
  | EmptyString => false
  | String c s' =>
      match utf8_step st c with
      | None => false
      | Some (st', None) => digits_dot_digits_in st' s'
      | Some (st', Some cp) =>
          if (cp =? 46)%N then digits1 s'
          else is_decimal cp && digits_dot_digits_in st' s'
      end
  end.

Definition digits_dot_digits (s : string) : bool :=
  digits_dot_digits_in utf8_start s.

(** [_negative_number_matcher]: [^-\d+$|^-\d*\.\d+$]. *)
Definition negative_number (s : string) : bool :=
  match s with
  | String "-" s' => digits1 s' || digits_dot_digits s'
  | _ => false
  end.

(** What [_parse_optional] makes of one argument string. *)
Inductive parsed_optional :=
| positional
| optional (a : option action) (option_string : string)
           (explicit_arg : option string)
| ambiguous.

(** [_get_option_tuples]: the registered option strings an abbreviation
    can stand for. *)
Definition get_option_tuples (t : string)
  : list (action * string * option string) :=
  match t with
  | String "-" (String "-" _) =>
      let '(option_prefix, explicit_arg) :=
        match split_eq t with
        | Some (p, e) => (p, Some e)
        | None => (t, None)
        end in
      flat_map (fun '(s, a) =>
                  if String.prefix option_prefix s
                  then [(a, s, explicit_arg)] else [])
               option_string_actions
  | String "-" (String c rest) =>
      flat_map (fun '(s, a) =>
                  if String.eqb s (String "-" (String c EmptyString))
                  then [(a, s, Some rest)]
                  else if String.prefix t s then [(a, s, None)] else [])
               option_string_actions
  | _ => []
  end.

Definition _parse_optional (t : string) : parsed_optional :=
  match t with
  | EmptyString => positional
  | String c _ =>
      if negb (Ascii.eqb c "-") then positional
      else
        match lookup_option t with
        | Some a => optional (Some a) t None
        | None =>
            if (String.length t =? 1)%nat then positional
            else
              let split_hit :=
                match split_eq t with
                | Some (o, e) =>
                    match lookup_option o with
                    | Some a => Some (a, o, e)
                    | None => None
                    end
                | None => None
                end in
              match split_hit with
              | Some (a, o, e) => optional (Some a) o (Some e)
              | None =>
                  match get_option_tuples t with
                  | _ :: _ :: _ => ambiguous
                  | [(a, o, e)] => optional (Some a) o e
                  | [] =>
                      if negative_number t then positional
                      else if contains_space t then positional
                      else optional None t None
                  end
              end
        end
  end.

(** One entry of [arg_strings_pattern], with its argument string: ['A'],
    ['-'] or ['O']. *)
Inductive pattern :=
| A (arg : string)
| DashDash
| O (a : option action) (option_string : string)
    (explicit_arg : option string).

(** The classification pass; [None] is the [ambiguous option] error. *)
Fixpoint arg_strings_pattern (arg_strings : list string)
  : option (list pattern) :=
  match arg_strings with
  | [] => Some []
  | t :: rest =>
      if String.eqb t "--" then Some (DashDash :: map A rest)
      else
        match _parse_optional t with
        | ambiguous => None
        | positional => cons (A t) <$> arg_strings_pattern rest
        | optional a o e => cons (O a o e) <$> arg_strings_pattern rest
        end
  end.

(** [-h] glued to further characters: each must again be the flag [h]. *)
Fixpoint only_help_flags (explicit_arg : string) : bool :=
  match explicit_arg with
  | EmptyString => false
  | String c rest =>
      Ascii.eqb c "h" &&
      match rest with
      | EmptyString => true
      | _ => only_help_flags rest
      end
  end.

(** The checks after the last argument string: required options, then
    unrecognized arguments. *)
Definition finish (ns : gmap string value) (extras : list string)
  : parse_result :=
  if forallb (fun d => bool_decide (is_Some (ns !! d))) required_dests then
    match extras with
    | [] =>
        match ns !! "project_id", ns !! "location", ns !! "input_file",
              ns !! "output_file", ns !! "prompt" with
        | Some p, Some l, Some i, Some o, Some q =>
            Parsed {| project_id := p; location := l; input_file := i;
                      output_file := o; prompt := q |}
        | _, _, _, _, _ => SystemExit 2
        end
    | _ :: _ => SystemExit 2
    end
  else SystemExit 2.

(** The consuming pass. *)
Fixpoint consume (pats : list pattern) (ns : gmap string value)
    (extras : list string) : parse_result :=
  match pats with
  | [] => finish ns extras
  | A t :: rest => consume rest ns (extras ++ [t])
  | DashDash :: rest => consume rest ns (extras ++ ["--"])
  | O None t _ :: rest => consume rest ns (extras ++ [t])
  | O (Some help) _ None :: _ => SystemExit 0
  | O (Some help) o (Some e) :: _ =>
      if String.eqb o "-h" && only_help_flags e
      then SystemExit 0 else SystemExit 2
  | O (Some (store d)) _ (Some e) :: rest => consume rest (<[d := _get_values e]> ns) extras
  | O (Some (store d)) _ None :: rest =>
      match rest with
      | A v :: rest' => consume rest' (<[d := _get_values v]> ns) extras
      | _ => SystemExit 2
      end
  end.

Definition parse_args (arg_strings : list string) : parse_result :=
  match arg_strings_pattern arg_strings with
  | None => SystemExit 2
  | Some pats => consume pats defaults []
  end.

End argparse.

(** ** The entry point (source lines 69-99) *)

(** How the process ends: [sys.exit] from the parser, the normal end of
    the script, or an exception nobody caught. *)
Inductive termination :=
| Exited (status : Z)
| Uncaught (e : exception).

(** The exit status the operating system sees. *)
Definition exit_status (t : termination) : Z :=
  match t with
  | Exited s => s
  | Uncaught _ => 1
  end.

(** The end of a run that entered [edit_image_mask_free]: the script
    has no [try], so an exception ends the process. *)
Definition conclude {A} (run : result A * world) : termination * world :=
  match run with
  | (Ok _, w') => (Exited 0, w')
  | (Raise e, w') => (Uncaught e, w')
  end.

Definition main (sdk : Sdk) (argv : list string) (w : world)
  : termination * world :=
  match argparse.parse_args argv with
  | argparse.SystemExit status => (Exited status, w)
  | argparse.Parsed args =>
      conclude (edit_image_mask_free sdk
                  (argparse.project_id args) (argparse.location args)
                  (argparse.input_file args) (argparse.output_file args)
                  (argparse.prompt args) w)
  end.

(** ** Vocabulary of the statements *)

Definition is_edit (c : call) : bool :=
  match c with edit_image _ _ _ _ _ _ => true | _ => false end.

Definition is_getitem (c : call) : bool :=
  match c with getitem _ _ => true | _ => false end.

Definition is_save (c : call) : bool :=
  match c with save _ _ => true | _ => false end.

(** Two calls of the same SDK operation. *)
Definition same_step (c c' : call) : bool :=
  match c, c' with
  | vertexai_init _ _, vertexai_init _ _
  | from_pretrained _, from_pretrained _
  | load_from_file _, load_from_file _
  | edit_image _ _ _ _ _ _, edit_image _ _ _ _ _ _
  | getitem _ _, getitem _ _
  | save _ _, save _ _ => true
  | _, _ => false
  end.

(** The calls made in a trace, in order. *)
Definition invoked (tr : list event) : list call :=
  flat_map (fun e => match e with Invoke c => [c] | _ => [] end) tr.

(** [a] occurs in [tr] strictly before an occurrence of [b]. *)
Fixpoint precedes (a b : event) (tr : list event) : Prop :=
  match tr with
  | [] => False
  | x :: rest => (x = a /\ In b rest) \/ precedes a b rest
  end.

(** The parameters the edit request is to carry (source lines 50-54). *)
Definition fixed_parameters (c : call) : Prop :=
  match c with
  | edit_image _ _ _ seed guidance_scale number_of_images =>
      seed = 1 /\ guidance_scale = 21 /\ number_of_images = 1
  | _ => True
  end.

(** The model every lookup is to ask for (source line 43). *)
Definition fixed_model (c : call) : Prop :=
  match c with
  | from_pretrained model_name => model_name = "imagegeneration@002"
  | _ => True
  end.

(** The line printed on success (source line 62). *)
Definition success_line (n : nat) : string :=
  "Created output image using " +:+ str_of_len n +:+ " bytes".

(** The number read back from a printed line: what stands between the
    fixed words of [success_line]. *)
Fixpoint drop_prefix (p s : string) : option string :=
  match p, s with
  | EmptyString, _ => Some s
  | String a p', String b s' => if Ascii.eqb a b then drop_prefix p' s' else None
  | String _ _, EmptyString => None
  end.

Definition is_ascii_digit (c : ascii) : bool :=
  let n := nat_of_ascii c in (48 <=? n)%nat && (n <=? 57)%nat.

Fixpoint leading_digits (s : string) : string :=
  match s with
  | String c s' => if is_ascii_digit c then String c (leading_digits s') else EmptyString
  | EmptyString => EmptyString
  end.

Definition byte_count_of_line (line : string) : option nat :=
  match drop_prefix "Created output image using " line with
  | Some tail =>
      match NilZero.uint_of_string (leading_digits tail) with
      | Some d => Some (Nat.of_uint d)
      | None => None
      end
  | None => None
  end.

(** The Python objects a caller of [edit_image_mask_free] may be handed:
    the response collection, or one generated image. *)
Inductive py_object :=
| response_object (r : ImageGenerationResponse)
| image_object (g : GeneratedImage).

(** *** Sample environments *)

Definition sample_image : GeneratedImage :=
  {| _image_bytes := [x89; x50; x4e; x47] |}.

Definition second_image : GeneratedImage :=
  {| _image_bytes := [xff; xd8] |}.

Definition sample_files : gmap string bytes :=
  {[ "my-input.png" := [x89; x50] ]}.

(** Locations under [gs://] are Cloud Storage URIs. *)
Definition gs_uri (location : string) : option string :=
  if String.prefix "gs://" location then Some location else None.

(** What a save writes in the samples: the buffer and, after it, the
    generation parameters. *)
Definition encoded (image : GeneratedImage) : bytes :=
  (_image_bytes image ++ [x45; x78; x69; x66])%list.

(** A service that answers every request with the given images. *)
Definition answering (imgs : list GeneratedImage) : Sdk :=
  {| sdk_init := fun _ _ _ => Ok tt;
     sdk_from_pretrained := fun _ name => Ok {| _endpoint_name := name |};
     sdk_gcs_uri := gs_uri;
     sdk_edit_image := fun _ _ _ _ _ _ _ => Ok {| images := imgs |};
     sdk_save := fun _ image _ => Ok (encoded image) |}.


(** The service rejects the edit request. *)
Definition quota_exceeded : Sdk :=
  {| sdk_init := fun _ _ _ => Ok tt;
     sdk_from_pretrained := fun _ name => Ok {| _endpoint_name := name |};
     sdk_gcs_uri := gs_uri;
     sdk_edit_image := fun _ _ _ _ _ _ _ => Raise (SdkError "ResourceExhausted");
     sdk_save := fun _ image _ => Ok (encoded image) |}.

(** The bytes an image was built from, if it was built from bytes. *)
Definition image_bytes_of (image : Image) : bytes :=
  match image with
  | Image_of_bytes b => b
  | Image_of_gcs _ => []
  end.

(** *** The ways a run can go

    [run_outcome sdk fs ... r w] lists, for a process started on the files
    [fs], the results [r] and final worlds [w] that the straight line of
    [edit_image_mask_free] allows, each with the answers of the
    environment that lead there. *)
Section Outcomes.

Variable sdk : Sdk.
Variable fs : gmap string bytes.
Variables project_id location input_file output_file prompt : value.

Definition c_init : call := vertexai_init project_id location.
Definition c_model : call := from_pretrained "imagegeneration@002".
Definition c_load : call := load_from_file input_file.
Definition c_edit (m : ImageGenerationModel) (b : Image) : call :=
  edit_image m b prompt 1 21 1.

Definition t_init : list event := [Invoke c_init; Returned c_init].
Definition t_model : list event :=
  t_init ++ [Invoke c_model; Returned c_model].
Definition t_load : list event :=
  t_model ++ [Invoke c_load; Returned c_load].
Definition t_edit m b : list event :=
  t_load ++ [Invoke (c_edit m b); Returned (c_edit m b)].
Definition t_first m b r : list event :=
  t_edit m b ++ [Invoke (getitem r 0); Returned (getitem r 0)].
Definition t_save m b r img : list event :=
  t_first m b r ++
  [Invoke (save img output_file); Returned (save img output_file)].
Definition t_done m b r img : list event :=
  t_save m b r img ++ [Invoke (getitem r 0); Returned (getitem r 0)].

Inductive run_outcome : result ImageGenerationResponse -> world -> Prop :=
| init_raises w e :
    sdk_init sdk w project_id location = Raise e ->
    run_outcome (Raise e) (World fs [] [Invoke c_init; Raised c_init e])
| lookup_raises w e :
    sdk_from_pretrained sdk w "imagegeneration@002" = Raise e ->
    run_outcome (Raise e)
      (World fs [] (t_init ++ [Invoke c_model; Raised c_model e]))
| load_raises w1 m e :
    sdk_from_pretrained sdk w1 "imagegeneration@002" = Ok m ->
    load_answer sdk fs input_file = Raise e ->
    run_outcome (Raise e)
      (World fs [] (t_model ++ [Invoke c_load; Raised c_load e]))
| edit_raises w1 w2 m b e :
    sdk_from_pretrained sdk w1 "imagegeneration@002" = Ok m ->
    load_answer sdk fs input_file = Ok b ->
    sdk_edit_image sdk w2 m b prompt 1 21 1 = Raise e ->
    run_outcome (Raise e)
      (World fs [] (t_load ++ [Invoke (c_edit m b); Raised (c_edit m b) e]))
| getitem_raises w1 w2 m b r :
    sdk_from_pretrained sdk w1 "imagegeneration@002" = Ok m ->
    load_answer sdk fs input_file = Ok b ->
    sdk_edit_image sdk w2 m b prompt 1 21 1 = Ok r ->
    images r = [] ->
    run_outcome (Raise IndexError)
      (World fs []
         (t_edit m b ++ [Invoke (getitem r 0); Raised (getitem r 0) IndexError]))
| save_raises w1 w2 w3 m b r img rest e :
    sdk_from_pretrained sdk w1 "imagegeneration@002" = Ok m ->
    load_answer sdk fs input_file = Ok b ->
    sdk_edit_image sdk w2 m b prompt 1 21 1 = Ok r ->
    images r = img :: rest ->
    save_answer sdk w3 img output_file = Raise e ->
    run_outcome (Raise e)
      (World fs []
         (t_first m b r ++ [Invoke (save img output_file);
                            Raised (save img output_file) e]))
| succeeds w1 w2 w3 m b r img rest path written :
    sdk_from_pretrained sdk w1 "imagegeneration@002" = Ok m ->
    load_answer sdk fs input_file = Ok b ->
    sdk_edit_image sdk w2 m b prompt 1 21 1 = Ok r ->
    images r = img :: rest ->
    save_answer sdk w3 img output_file = Ok (path, written) ->
    run_outcome (Ok r)
      (World (<[path := written]> fs)
             [success_line (length (_image_bytes img))]
             (t_done m b r img)).

End Outcomes.

(** *** The command line, as a user writes it *)

(** The argument string [t] is taken as the option storing into [d]:
    the option string itself, with [=value] glued on, or abbreviated. *)
Definition selects (d : string) (t : string) : bool :=
  match argparse._parse_optional t with
  | argparse.optional (Some (argparse.store d')) _ _ => String.eqb d d'
  | _ => false
  end.

(** The flag storing into [d] is given somewhere on the command line. *)
Definition given (d : string) (argv : list string) : bool :=
  existsb (selects d) argv.

(** The argument string asks for help: [-h], [--help] or a variant. *)
Definition asks_help (t : string) : bool :=
  match argparse._parse_optional t with
  | argparse.optional (Some argparse.help) _ _ => true
  | _ => false
  end.

(** *** Readings that the code does not bear out

    Each of these states a sentence of the specification word for word;
    the theorems below refute it at a sample run and prove what holds in
    its place. *)

(** "The image saved to [output_path] is the element at index 0 of the
    response, and the value returned by the function is that first
    image." *)
Definition returns_first_image (sdk : Sdk) (fs : gmap string bytes)
    (project_id location input_file output_file prompt : value) : Prop :=
  forall r w',
    edit_image_mask_free sdk project_id location input_file output_file
                         prompt (boot fs) = (Ok r, w') ->
    exists first,
      list_getitem (images r) 0 = Ok first
      /\ In (Returned (save first output_file)) (trace w')
      /\ response_object r = image_object first.


(** "When [--location] is given explicitly, that explicit value is
    passed instead", for a value glued to the flag. *)
Definition explicit_location_passed (pre : list string) (v : string)
    (post : list string) : Prop :=
  forall args,
    argparse.parse_args (pre ++ ("--location=" +:+ v) :: post)
    = argparse.Parsed args ->
    given "location" post = false ->
    argparse.location args = str v.


(** *** Further vocabulary for the command line *)

(** The argument string begins with the prefix character [-]. *)
Definition starts_with_dash (s : string) : bool :=
  match s with
  | String c _ => Ascii.eqb c "-"
  | EmptyString => false
  end.

(** The argument string reads as an option that the parser does not
    have. *)
Definition unknown_option (t : string) : bool :=
  match argparse._parse_optional t with
  | argparse.optional None _ _ => true
  | _ => false
  end.

(** The destinations of the five [add_argument] calls. *)
Definition all_dests : list string :=
  ["project_id"; "location"; "input_file"; "output_file"; "prompt"].

(** A command line written as in the usage text of the module docstring
    (source lines 18-19): each flag in full, followed by its value. *)
Definition command_line (kvs : list (string * string)) : list string :=
  flat_map (fun kv => ["--" +:+ fst kv; snd kv]) kvs.

(** Every flag is one of the script's and no value begins with [-]. *)
Definition well_formed (kvs : list (string * string)) : Prop :=
  Forall (fun kv => In (fst kv) all_dests /\ starts_with_dash (snd kv) = false)
         kvs.

(** The namespace after storing the values in order, later ones over
    earlier ones. *)
Definition store_all (ns : gmap string value)
    (kvs : list (string * string)) : gmap string value :=
  fold_left (fun ns kv => <[fst kv := str (snd kv)]> ns) kvs ns.

(** The pattern of a documented command line: each flag an option, each
    value an argument. *)
Definition pattern_of (kvs : list (string * string)) : list argparse.pattern :=
  flat_map (fun kv => [argparse.O (Some (argparse.store (fst kv))) ("--" +:+ fst kv) None;
                       argparse.A (snd kv)]) kvs.

(** The argument string is not read as a plain argument: it is or
    abbreviates an option, known or not, or is the separator [--]. *)
Definition option_like (v : string) : bool :=
  match argparse._parse_optional v with
  | argparse.positional => false
  | _ => true
  end.

(** ** Theorems *)

(** *** Helper lemmas *)

Lemma list_getitem_0 {A} (l : list A) :
  list_getitem l 0 = match l with [] => Raise IndexError | a :: _ => Ok a end.
Proof. destruct l; reflexivity. Qed.

Lemma str_of_len_read (n : nat) :
  NilZero.uint_of_string (str_of_len n) = Some (Nat.to_uint n).
Proof.
  unfold str_of_len. apply NilZero.usu.
  destruct n; simpl; [discriminate|].
  intros H. pose proof (Unsigned.of_to (S n)) as E. simpl in E.
  rewrite H in E. discriminate.
Qed.

(** Every run of [edit_image_mask_free] from a fresh process is one of
    the listed outcomes: the function is total, and nothing else can
    happen. *)
Lemma run_cases sdk fs project_id location input_file output_file prompt :
  let run := edit_image_mask_free sdk project_id location input_file
                                  output_file prompt (boot fs) in
  run_outcome sdk fs project_id location input_file output_file prompt
              (fst run) (snd run).
Proof.
  cbv zeta.
  unfold edit_image_mask_free, bind, init, ImageGenerationModel_from_pretrained,
    Image_load_from_file, model_edit_image, response_getitem, image_save,
    print, ret, sdk_call, boot, record, set_files, put_line; simpl.
  destruct (sdk_init sdk _ project_id location) as [[]|e] eqn:Hinit; simpl;
    [|eapply init_raises; eassumption].
  destruct (sdk_from_pretrained sdk _ _) as [m|e] eqn:Hmodel; simpl;
    [|eapply lookup_raises; eassumption].
  destruct (load_answer sdk fs input_file) as [b|e] eqn:Hfile; simpl;
    [|eapply load_raises; eassumption].
  destruct (sdk_edit_image sdk _ m _ prompt 1 21 1) as [r|e] eqn:Hedit; simpl;
    [|eapply edit_raises; eassumption].
  rewrite list_getitem_0.
  destruct (images r) as [|img rest] eqn:Himgs; simpl;
    [eapply getitem_raises; eassumption|].
  destruct (save_answer sdk _ img output_file) as [[path written]|e] eqn:Hsave;
    simpl; [|eapply save_raises; eassumption].
  eapply succeeds; eassumption.
Qed.


Lemma load_answer_ok sdk fs location b :
  load_answer sdk fs location = Ok b ->
  exists path,
    location = str path
    /\ ((exists uri, sdk_gcs_uri sdk path = Some uri /\ b = Image_of_gcs uri)
        \/ (sdk_gcs_uri sdk path = None /\ fs !! path = Some (image_bytes_of b)
            /\ b = Image_of_bytes (image_bytes_of b)
            /\ image_bytes_of b <> [])).
Proof.
  unfold load_answer. destruct location as [path|]; [|discriminate].
  intros H. exists path. split; [done|].
  destruct (sdk_gcs_uri sdk path) as [uri|]; [injection H as <-; eauto|].
  destruct (fs !! path) as [[|c bs]|]; try discriminate.
  injection H as <-. right. by repeat split.
Qed.

Lemma save_answer_ok sdk w image location path written :
  save_answer sdk w image location = Ok (path, written) ->
  location = str path
  /\ sdk_save sdk w image path = Ok written
  /\ _image_bytes image <> [].
Proof.
  unfold save_answer. destruct (_image_bytes image); [discriminate|].
  destruct location as [path'|]; [|discriminate].
  destruct (sdk_save sdk w image path') eqn:E; [|discriminate].
  intros [= <- <-]. by repeat split.
Qed.

(** The entry point either stops in the parser, leaving the world as it
    was, or runs [edit_image_mask_free] on the five parsed values. *)
Lemma main_cases sdk argv w :
  (exists status,
     main sdk argv w = (Exited status, w)
     /\ argparse.parse_args argv = argparse.SystemExit status)
  \/ (exists args,
        argparse.parse_args argv = argparse.Parsed args
        /\ main sdk argv w
           = conclude (edit_image_mask_free sdk
                         (argparse.project_id args) (argparse.location args)
                         (argparse.input_file args)
                         (argparse.output_file args)
                         (argparse.prompt args) w)).
Proof.
  unfold main.
  destruct (argparse.parse_args argv) as [args|status]; eauto.
Qed.

Lemma main_parsed sdk argv w args :
  argparse.parse_args argv = argparse.Parsed args ->
  main sdk argv w
  = conclude (edit_image_mask_free sdk
                (argparse.project_id args) (argparse.location args)
                (argparse.input_file args) (argparse.output_file args)
                (argparse.prompt args) w).
Proof. unfold main. intros ->. reflexivity. Qed.

Lemma conclude_world {A} (run : result A * world) :
  snd (conclude run) = snd run.
Proof. destruct run as [[a|e] w']; reflexivity. Qed.

(** Case analysis on a run, through [run_cases]. *)
Ltac run_inversion sdk fs p l i o q :=
  let Hrun := fresh "Hrun" in
  pose proof (run_cases sdk fs p l i o q) as Hrun; cbv zeta in Hrun;
  destruct (edit_image_mask_free sdk p l i o q (boot fs)) as [? ?];
  simpl in Hrun; inversion Hrun; subst; clear Hrun;
  unfold t_done, t_save, t_first, t_edit, t_load, t_model, t_init,
    c_edit, c_load, c_model, c_init in *; simpl in *.

(** *** The fixed request parameters *)

Lemma run_fixed_parameters sdk fs p l i o q :
  Forall fixed_parameters
    (invoked (trace (snd (edit_image_mask_free sdk p l i o q (boot fs))))).
Proof.
  run_inversion sdk fs p l i o q;
    repeat (constructor; simpl; auto).
Qed.

(** C1: every invocation hands the remote edit call the hard-coded
    parameters seed = 1, guidance_scale = 21 and number_of_images = 1,
    whatever the project id, location, paths and prompt, and whatever the
    command line: every edit request in the trace of [main] and of
    [edit_image_mask_free] carries them, and a run that succeeds has issued
    exactly one edit request, with the caller's prompt and these three
    values. *)
Theorem C1_fixed_edit_parameters sdk fs argv p l i o q :
  Forall fixed_parameters (invoked (trace (snd (main sdk argv (boot fs)))))
  /\ Forall fixed_parameters
       (invoked (trace (snd (edit_image_mask_free sdk p l i o q (boot fs)))))
  /\ (forall r w',
        edit_image_mask_free sdk p l i o q (boot fs) = (Ok r, w') ->
        exists m b,
          List.filter is_edit (invoked (trace w')) = [edit_image m b q 1 21 1]).
Proof.
  split; [|split].
  - destruct (main_cases sdk argv (boot fs))
      as [(status & -> & _)|(args & _ & ->)].
    + constructor.
    + rewrite conclude_world. apply run_fixed_parameters.
  - apply run_fixed_parameters.
  - intros r w' E. run_inversion sdk fs p l i o q; try discriminate.
    inversion E; subst. simpl. eauto.
Qed.

Lemma C1_fixed_edit_parameters_witness :
  exists m b,
    List.filter is_edit
      (invoked (trace (snd (edit_image_mask_free (answering [sample_image])
         "my-project" "us-central1" "my-input.png" "my-output.png" "a dog"
         (boot sample_files)))))
    = [edit_image m b "a dog" 1 21 1].
Proof.
  apply (proj2 (proj2 (C1_fixed_edit_parameters (answering [sample_image])
           sample_files [] "my-project" "us-central1" "my-input.png"
           "my-output.png" "a dog"))
           {| images := [sample_image] |}).
  vm_compute. reflexivity.
Defined.

(** *** The fixed model *)

Lemma run_fixed_model sdk fs p l i o q :
  Forall fixed_model
    (invoked (trace (snd (edit_image_mask_free sdk p l i o q (boot fs))))).
Proof.
  run_inversion sdk fs p l i o q;
    repeat (constructor; simpl; auto).
Qed.

(** C9: every invocation addresses the model "imagegeneration@002": each
    model lookup in the trace of [main] and of [edit_image_mask_free] asks
    for that name, whatever the inputs and the command line; a run that
    succeeds has looked the model up exactly once; and the model object of
    every edit request is the one that lookup of "imagegeneration@002"
    returned. *)
Theorem C9_fixed_model sdk fs argv p l i o q :
  Forall fixed_model (invoked (trace (snd (main sdk argv (boot fs)))))
  /\ Forall fixed_model
       (invoked (trace (snd (edit_image_mask_free sdk p l i o q (boot fs)))))
  /\ (forall r w',
        edit_image_mask_free sdk p l i o q (boot fs) = (Ok r, w') ->
        List.filter (fun c => match c with from_pretrained _ => true
                                      | _ => false end)
                    (invoked (trace w'))
        = [from_pretrained "imagegeneration@002"])
  /\ (forall m b q' s g n,
        In (edit_image m b q' s g n)
           (invoked (trace (snd (edit_image_mask_free sdk p l i o q
                                                      (boot fs))))) ->
        exists w, sdk_from_pretrained sdk w "imagegeneration@002" = Ok m).
Proof.
  split; [|split; [|split]].
  - destruct (main_cases sdk argv (boot fs))
      as [(status & -> & _)|(args & _ & ->)].
    + constructor.
    + rewrite conclude_world. apply run_fixed_model.
  - apply run_fixed_model.
  - intros r w' E. run_inversion sdk fs p l i o q; try discriminate.
    inversion E; subst. reflexivity.
  - intros m b q' s g n Hin.
    run_inversion sdk fs p l i o q;
      repeat (destruct Hin as [Hin|Hin]; try discriminate); try contradiction;
      inversion Hin; subst; eauto.
Qed.

Lemma C9_fixed_model_witness :
  List.filter (fun c => match c with from_pretrained _ => true | _ => false end)
    (invoked (trace (snd (edit_image_mask_free (answering [sample_image])
       "my-project" "europe-west4" "my-input.png" "my-output.png" "a cat"
       (boot sample_files)))))
  = [from_pretrained "imagegeneration@002"].
Proof.
  apply (proj1 (proj2 (proj2 (C9_fixed_model (answering [sample_image])
           sample_files [] "my-project" "europe-west4" "my-input.png"
           "my-output.png" "a cat")))
           {| images := [sample_image] |}).
  vm_compute. reflexivity.
Defined.

(** *** Order of the file accesses and the remote call *)

Lemma precedes_split a b tr :
  precedes a b tr <->
  exists l1 l2 l3 : list event, tr = (l1 ++ a :: l2 ++ b :: l3)%list.
Proof.
  split.
  - induction tr as [|x tr IH]; simpl; [tauto|].
    intros [[-> Hb]|H].
    + apply in_split in Hb as (l2 & l3 & ->). exists [], l2, l3. reflexivity.
    + destruct (IH H) as (l1 & l2 & l3 & ->). exists (x :: l1), l2, l3.
      reflexivity.
  - intros (l1 & l2 & l3 & ->). induction l1 as [|x l1 IH]; simpl.
    + left. split; [reflexivity|]. apply in_or_app. right. left. reflexivity.
    + right. exact IH.
Qed.

(** Finds the two events of a [precedes] goal in a trace that is written
    out. *)
Ltac find_in :=
  simpl; repeat first [left; reflexivity | right].

Ltac find_precedes :=
  simpl; repeat first [left; split; [reflexivity|find_in] | right].

(** Splits a written-out trace before its last two events. *)
Ltac find_prefix :=
  first
    [ exists []; reflexivity
    | eexists [_; _]; reflexivity
    | eexists [_; _; _; _]; reflexivity
    | eexists [_; _; _; _; _; _]; reflexivity
    | eexists [_; _; _; _; _; _; _; _]; reflexivity
    | eexists [_; _; _; _; _; _; _; _; _; _]; reflexivity
    | eexists [_; _; _; _; _; _; _; _; _; _; _; _]; reflexivity ].

(** C7: in every execution the read of the input file comes back before
    the remote edit call is made, and the output file is written only
    after the remote edit call has returned: an edit request in the trace
    is preceded by the return of the load of [input_file]; a save in the
    trace is preceded by the return of the edit call, never the other way
    round; the files change only through a completed save, which puts at
    the output path what the SDK's save writes; and a successful run is
    exactly the sequence init, lookup, load, edit, index, save, index. *)
Theorem C7_io_order sdk fs p l i o q :
  let run := edit_image_mask_free sdk p l i o q (boot fs) in
  let tr := trace (snd run) in
  (forall c, is_edit c = true -> In (Invoke c) tr ->
     precedes (Returned (load_from_file i)) (Invoke c) tr
     /\ ~ precedes (Invoke c) (Invoke (load_from_file i)) tr)
  /\ (forall img path, In (Invoke (save img path)) tr ->
        exists m b, precedes (Returned (edit_image m b q 1 21 1))
                             (Invoke (save img path)) tr)
  /\ (forall img path c, is_edit c = true ->
        ~ precedes (Invoke (save img path)) (Invoke c) tr
        /\ ~ precedes (Invoke (save img path)) (Returned c) tr
        /\ ~ precedes (Returned (save img path)) (Returned c) tr)
  /\ (files (snd run) = fs
      \/ exists img m b path written w,
           o = str path
           /\ sdk_save sdk w img path = Ok written
           /\ files (snd run) = <[path := written]> fs
           /\ precedes (Returned (edit_image m b q 1 21 1))
                       (Returned (save img o)) tr)
  /\ (forall r, fst run = Ok r ->
        exists m b img,
          tr = [Invoke (vertexai_init p l); Returned (vertexai_init p l);
                Invoke (from_pretrained "imagegeneration@002");
                Returned (from_pretrained "imagegeneration@002");
                Invoke (load_from_file i); Returned (load_from_file i);
                Invoke (edit_image m b q 1 21 1);
                Returned (edit_image m b q 1 21 1);
                Invoke (getitem r 0); Returned (getitem r 0);
                Invoke (save img o); Returned (save img o);
                Invoke (getitem r 0); Returned (getitem r 0)]).
Proof.
  cbv zeta. split; [|split; [|split; [|split]]].
  - intros c Hc Hin.
    run_inversion sdk fs p l i o q;
      repeat (destruct Hin as [Hin|Hin]; try discriminate); try contradiction;
      inversion Hin; subst;
      (split; [find_precedes|]);
      simpl; intuition (try discriminate).
  - intros img path Hin.
    run_inversion sdk fs p l i o q;
      repeat (destruct Hin as [Hin|Hin]; try discriminate); try contradiction;
      inversion Hin; subst; do 2 eexists; find_precedes.
  - intros img path c Hc.
    run_inversion sdk fs p l i o q; simpl;
      destruct c; try discriminate;
      intuition (try discriminate).
  - run_inversion sdk fs p l i o q; auto.
    match goal with H : save_answer _ _ _ _ = Ok _ |- _ =>
      apply save_answer_ok in H as (-> & Hsave & _) end.
    right. do 6 eexists. split; [reflexivity|]. split; [exact Hsave|].
    split; [reflexivity|]. find_precedes.
  - intros r E.
    run_inversion sdk fs p l i o q; try discriminate.
    inversion E; subst. do 3 eexists. reflexivity.
Qed.

Lemma C7_io_order_witness :
  precedes (Returned (load_from_file "my-input.png"))
    (Invoke (edit_image {| _endpoint_name := "imagegeneration@002" |}
                        (Image_of_bytes [x89; x50]) "a dog" 1 21 1))
    (trace (snd (edit_image_mask_free (answering [sample_image])
       "my-project" "us-central1" "my-input.png" "my-output.png" "a dog"
       (boot sample_files)))).
Proof.
  refine (proj1 (proj1 (C7_io_order (answering [sample_image]) sample_files
            "my-project" "us-central1" "my-input.png" "my-output.png"
            "a dog")
            (edit_image {| _endpoint_name := "imagegeneration@002" |}
                        (Image_of_bytes [x89; x50]) "a dog" 1 21 1)
            eq_refl _)).
  vm_compute. find_in.
Defined.

(** *** Errors *)

(** C6: an error raised by any step (client initialization, model lookup,
    input load, remote edit call, index access, output save) is the result
    of the run, unchanged; the raising call is the last event of the trace,
    so no later step runs; no step is called twice; when a step has raised,
    no file has been written and nothing has been printed, so in particular
    a failed edit call leaves no output file and no success message; and
    [main] ends on that uncaught exception, with exit status 1. *)
Theorem C6_errors_propagate sdk fs argv p l i o q :
  let run := edit_image_mask_free sdk p l i o q (boot fs) in
  let tr := trace (snd run) in
  (forall c e, In (Raised c e) tr ->
     fst run = Raise e
     /\ (exists pre : list event, tr = (pre ++ [Invoke c; Raised c e])%list)
     /\ files (snd run) = fs
     /\ stdout (snd run) = []
     /\ (is_edit c = true ->
         Forall (fun c' => is_save c' = false) (invoked tr))
     /\ conclude run = (Uncaught e, snd run))
  /\ (forall e, fst run = Raise e -> exists c, In (Raised c e) tr)
  /\ (forall c, is_getitem c = false ->
        (length (List.filter (same_step c) (invoked tr)) <= 1)%nat)
  /\ (forall c e, In (Raised c e) (trace (snd (main sdk argv (boot fs)))) ->
        fst (main sdk argv (boot fs)) = Uncaught e
        /\ exit_status (fst (main sdk argv (boot fs))) = 1).
Proof.
  assert (Hfun : forall p l i o q,
    let run := edit_image_mask_free sdk p l i o q (boot fs) in
    forall c e, In (Raised c e) (trace (snd run)) ->
     fst run = Raise e
     /\ (exists pre : list event,
           trace (snd run) = (pre ++ [Invoke c; Raised c e])%list)
     /\ files (snd run) = fs
     /\ stdout (snd run) = []
     /\ (is_edit c = true ->
         Forall (fun c' => is_save c' = false) (invoked (trace (snd run))))
     /\ conclude run = (Uncaught e, snd run)).
  { clear. intros p l i o q run c e Hin. subst run.
    run_inversion sdk fs p l i o q;
      repeat (destruct Hin as [Hin|Hin]; try discriminate); try contradiction;
      inversion Hin; subst;
      (split; [reflexivity|]);
      (split; [find_prefix|]);
      (split; [reflexivity|]); (split; [reflexivity|]);
      (split; [|reflexivity]);
      intros Hc; try discriminate Hc; repeat (constructor; simpl; auto). }
  cbv zeta. split; [|split; [|split]].
  - apply Hfun.
  - intros e E.
    run_inversion sdk fs p l i o q; try discriminate;
      inversion E; subst; eexists; find_in.
  - intros c Hc.
    run_inversion sdk fs p l i o q; destruct c; try discriminate; simpl; lia.
  - intros c e Hin.
    destruct (main_cases sdk argv (boot fs))
      as [(status & E & _)|(args & _ & E)]; rewrite E in *.
    + contradiction.
    + rewrite conclude_world in Hin.
      destruct (Hfun _ _ _ _ _ c e Hin) as (_ & _ & _ & _ & _ & ->).
      split; reflexivity.
Qed.

Lemma C6_errors_propagate_witness :
  let run := edit_image_mask_free quota_exceeded "my-project" "us-central1"
               "my-input.png" "my-output.png" "a dog" (boot sample_files) in
  fst run = Raise (SdkError "ResourceExhausted")
  /\ files (snd run) = sample_files
  /\ stdout (snd run) = [].
Proof.
  destruct (proj1 (C6_errors_propagate quota_exceeded sample_files []
              "my-project" "us-central1" "my-input.png" "my-output.png"
              "a dog")
              (edit_image {| _endpoint_name := "imagegeneration@002" |}
                          (Image_of_bytes [x89; x50]) "a dog" 1 21 1)
              (SdkError "ResourceExhausted"))
    as (Hr & _ & Hf & Hs & _).
  - vm_compute. find_in.
  - cbv zeta. split; [exact Hr|split; [exact Hf|exact Hs]].
Defined.

(** *** The index access *)

(** C10: the response collection is accessed only at index 0, and only
    the response the edit call returned; every run in which the edit call
    returns makes that access; when the response holds at least the one
    requested image the access returns and [IndexError] is never raised;
    when the response is empty the run ends on [IndexError] raised by the
    index access, before any save is called, with no file written and
    nothing printed. *)
Theorem C10_index_zero sdk fs p l i o q :
  let run := edit_image_mask_free sdk p l i o q (boot fs) in
  let tr := trace (snd run) in
  (forall r idx, In (getitem r idx) (invoked tr) ->
     idx = 0
     /\ exists w m b, sdk_edit_image sdk w m b q 1 21 1 = Ok r)
  /\ (forall c, is_edit c = true -> In (Returned c) tr ->
        exists r, In (Invoke (getitem r 0)) tr)
  /\ (forall r idx, In (getitem r idx) (invoked tr) ->
        (1 <= length (images r))%nat ->
        In (Returned (getitem r idx)) tr
        /\ (forall e, ~ In (Raised (getitem r idx) e) tr))
  /\ (forall r idx, In (getitem r idx) (invoked tr) ->
        images r = [] ->
        fst run = Raise IndexError
        /\ (exists pre : list event,
              tr = (pre ++ [Invoke (getitem r 0);
                            Raised (getitem r 0) IndexError])%list)
        /\ Forall (fun c => is_save c = false) (invoked tr)
        /\ files (snd run) = fs
        /\ stdout (snd run) = []).
Proof.
  cbv zeta. split; [|split; [|split]].
  - intros r idx Hin.
    run_inversion sdk fs p l i o q;
      repeat (destruct Hin as [Hin|Hin]; try discriminate); try contradiction;
      inversion Hin; subst; (split; [reflexivity|eauto]).
  - intros c Hc Hin.
    run_inversion sdk fs p l i o q;
      repeat (destruct Hin as [Hin|Hin]; try discriminate); try contradiction;
      inversion Hin; subst; try discriminate; eexists; find_in.
  - intros r idx Hin Hlen.
    run_inversion sdk fs p l i o q;
      repeat (destruct Hin as [Hin|Hin]; try discriminate); try contradiction;
      inversion Hin; subst;
      try (match goal with H : images _ = [] |- _ =>
             rewrite H in Hlen; simpl in Hlen; lia end);
      (split; [find_in|]);
      intros e' Hbad;
      repeat (destruct Hbad as [Hbad|Hbad]; try discriminate);
      contradiction.
  - intros r idx Hin Hnil.
    run_inversion sdk fs p l i o q;
      repeat (destruct Hin as [Hin|Hin]; try discriminate); try contradiction;
      inversion Hin; subst; try congruence.
    split; [reflexivity|]. split; [find_prefix|].
    split; [repeat (constructor; simpl; auto)|]. split; reflexivity.
Qed.

Lemma C10_index_zero_witness :
  let run := edit_image_mask_free (answering []) "my-project" "us-central1"
               "my-input.png" "my-output.png" "a dog" (boot sample_files) in
  fst run = Raise IndexError
  /\ files (snd run) = sample_files
  /\ stdout (snd run) = [].
Proof.
  destruct (proj2 (proj2 (proj2 (C10_index_zero (answering []) sample_files
              "my-project" "us-central1" "my-input.png" "my-output.png"
              "a dog")))
              {| images := [] |} 0)
    as (Hr & _ & _ & Hf & Hs).
  - vm_compute. find_in.
  - reflexivity.
  - cbv zeta. split; [exact Hr|split; [exact Hf|exact Hs]].
Defined.

(** *** The result of a successful run *)

(** C2, as the code has it: in every successful run the image saved to
    the output path is the element at index 0 of the response (the one
    save of the run is the save of that image at that path, and the file
    there holds what this save writes), and the value returned is the
    response collection that the edit call returned, with that image at
    index 0: the collection itself, not the image. *)
Theorem C2_returns_response sdk fs p l i o q r w' :
  edit_image_mask_free sdk p l i o q (boot fs) = (Ok r, w') ->
  exists first rest,
    images r = first :: rest
    /\ list_getitem (images r) 0 = Ok first
    /\ (exists w m b, sdk_edit_image sdk w m b q 1 21 1 = Ok r)
    /\ List.filter is_save (invoked (trace w')) = [save first o]
    /\ In (Returned (save first o)) (trace w')
    /\ (exists path written w,
          o = str path
          /\ sdk_save sdk w first path = Ok written
          /\ files w' = <[path := written]> fs).
Proof.
  intros E. run_inversion sdk fs p l i o q; try discriminate.
  inversion E; subst. simpl.
  match goal with H : images _ = _ |- _ => rewrite H end.
  match goal with H : save_answer _ _ _ _ = Ok _ |- _ =>
    apply save_answer_ok in H as (-> & Hsave & _) end.
  do 2 eexists. split; [reflexivity|]. split; [reflexivity|].
  split; [eauto|]. split; [reflexivity|]. split; [find_in|].
  do 3 eexists. split; [reflexivity|]. split; [exact Hsave|reflexivity].
Qed.

Lemma C2_returns_response_witness :
  exists first rest,
    [sample_image; second_image] = first :: rest
    /\ List.filter is_save
         (invoked (trace (snd (edit_image_mask_free
            (answering [sample_image; second_image])
            "my-project" "us-central1" "my-input.png" "my-output.png"
            "a dog" (boot sample_files)))))
       = [save first "my-output.png"].
Proof.
  destruct (C2_returns_response (answering [sample_image; second_image])
              sample_files "my-project" "us-central1" "my-input.png"
              "my-output.png" "a dog"
              {| images := [sample_image; second_image] |}
              (snd (edit_image_mask_free
                      (answering [sample_image; second_image])
                      "my-project" "us-central1" "my-input.png"
                      "my-output.png" "a dog" (boot sample_files))))
    as (first & rest & Himgs & _ & _ & Hsave & _).
  - vm_compute. reflexivity.
  - exists first, rest. split; [exact Himgs|exact Hsave].
Defined.

(** C2 as the specification words it fails: with a service that answers
    with one image, the run succeeds and hands back the response
    collection, which is not that image. *)
Lemma C2_returns_first_image_counterexample :
  ~ returns_first_image (answering [sample_image]) sample_files
      "my-project" "us-central1" "my-input.png" "my-output.png" "a dog".
Proof.
  intros H.
  destruct (H {| images := [sample_image] |}
              (snd (edit_image_mask_free (answering [sample_image])
                      "my-project" "us-central1" "my-input.png"
                      "my-output.png" "a dog" (boot sample_files))))
    as (first & _ & _ & Habs).
  - vm_compute. reflexivity.
  - discriminate Habs.
Qed.

(** *** A missing input file *)




(** *** The success message *)

Lemma leading_digits_uint (d : Decimal.uint) (tail : string) :
  leading_digits (NilEmpty.string_of_uint d +:+ String " " tail)
  = NilEmpty.string_of_uint d.
Proof.
  induction d; simpl; try reflexivity; unfold is_ascii_digit; simpl;
    f_equal; exact IHd.
Qed.

Lemma leading_digits_len (n : nat) (tail : string) :
  leading_digits (str_of_len n +:+ String " " tail) = str_of_len n.
Proof.
  unfold str_of_len, NilZero.string_of_uint.
  destruct (Nat.to_uint n) eqn:E; try apply leading_digits_uint.
  reflexivity.
Qed.

(** The number printed can be read back from the line. *)
Lemma byte_count_of_success_line (n : nat) :
  byte_count_of_line (success_line n) = Some n.
Proof.
  unfold byte_count_of_line, success_line.
  change (drop_prefix "Created output image using "
            ("Created output image using " +:+ str_of_len n +:+ " bytes"))
    with (Some (str_of_len n +:+ String " " "bytes")).
  cbv beta iota. rewrite leading_digits_len, str_of_len_read.
  f_equal. apply Unsigned.of_to.
Qed.

(** C8: every successful run leaves a file at the output path (holding
    what the SDK's save wrote for the first generated image) and prints
    exactly one line, "Created output image using N bytes"; the number N
    read back from that line is positive and is the byte length of that
    image's internal buffer.  It is positive because the save, which
    comes before the print, decodes the buffer and so does not succeed on
    an empty one. *)
Theorem C8_success_output sdk fs p l i o q r w' :
  edit_image_mask_free sdk p l i o q (boot fs) = (Ok r, w') ->
  exists path first line n,
    o = str path
    /\ is_Some (files w' !! path)
    /\ (exists written w,
          sdk_save sdk w first path = Ok written
          /\ files w' !! path = Some written)
    /\ stdout w' = [line]
    /\ line = success_line n
    /\ byte_count_of_line line = Some n
    /\ (0 < n)%nat
    /\ list_getitem (images r) 0 = Ok first
    /\ n = length (_image_bytes first).
Proof.
  intros E. run_inversion sdk fs p l i o q; try discriminate.
  inversion E; subst. simpl.
  match goal with H : images _ = _ |- _ => rewrite H end.
  match goal with H : save_answer _ _ _ _ = Ok _ |- _ =>
    apply save_answer_ok in H as (-> & Hsave & Hbuffer) end.
  do 4 eexists. split; [reflexivity|].
  split; [rewrite lookup_insert_eq; eauto|].
  split; [do 2 eexists; split; [exact Hsave|apply lookup_insert_eq]|].
  split; [reflexivity|]. split; [reflexivity|].
  split; [apply byte_count_of_success_line|].
  split; [|split; reflexivity].
  destruct (_image_bytes _); [done|simpl; lia].
Qed.

Lemma C8_success_output_witness :
  stdout (snd (edit_image_mask_free (answering [sample_image])
                 "my-project" "us-central1" "my-input.png" "my-output.png"
                 "a dog" (boot sample_files)))
  = ["Created output image using 4 bytes"].
Proof.
  destruct (C8_success_output (answering [sample_image]) sample_files
              "my-project" "us-central1" "my-input.png" "my-output.png"
              "a dog" {| images := [sample_image] |}
              (snd (edit_image_mask_free (answering [sample_image])
                      "my-project" "us-central1" "my-input.png"
                      "my-output.png" "a dog" (boot sample_files))))
    as (path & first & line & n & _ & _ & _ & Hout & -> & _ & _ & Hfirst & ->).
  - vm_compute. reflexivity.
  - rewrite Hout. vm_compute in Hfirst. inversion Hfirst. reflexivity.
Defined.

(** *** The command line *)

Import argparse.

(** Induction that follows [consume], which takes one or two entries of
    the pattern at a time. *)
Lemma pair_induction {T} (P : list T -> Prop) :
  P [] ->
  (forall x, P [x]) ->
  (forall x y l, P l -> P (y :: l) -> P (x :: y :: l)) ->
  forall l, P l.
Proof.
  intros Hnil Hone Hstep l.
  assert (H : P l /\ forall x, P (x :: l)).
  { induction l as [|y l [IH1 IH2]]; split; auto. }
  exact (proj1 H).
Qed.

(** The cases of [consume], as an elimination principle. *)
Lemma consume_elim
    (P : list pattern -> gmap string value -> list string ->
         parse_result -> Prop) :
  (forall ns ex, P [] ns ex (finish ns ex)) ->
  (forall t rest ns ex,
     P rest ns (ex ++ [t])%list (consume rest ns (ex ++ [t])) ->
     P (A t :: rest) ns ex (consume rest ns (ex ++ [t]))) ->
  (forall rest ns ex,
     P rest ns (ex ++ ["--"])%list (consume rest ns (ex ++ ["--"])) ->
     P (DashDash :: rest) ns ex (consume rest ns (ex ++ ["--"]))) ->
  (forall t e rest ns ex,
     P rest ns (ex ++ [t])%list (consume rest ns (ex ++ [t])) ->
     P (O None t e :: rest) ns ex (consume rest ns (ex ++ [t]))) ->
  (forall o rest ns ex,
     P (O (Some help) o None :: rest) ns ex (SystemExit 0)) ->
  (forall o e rest ns ex,
     P (O (Some help) o (Some e) :: rest) ns ex
       (if String.eqb o "-h" && only_help_flags e
        then SystemExit 0 else SystemExit 2)) ->
  (forall d o e rest ns ex,
     P rest (<[d := _get_values e]> ns) ex
       (consume rest (<[d := _get_values e]> ns) ex) ->
     P (O (Some (store d)) o (Some e) :: rest) ns ex
       (consume rest (<[d := _get_values e]> ns) ex)) ->
  (forall d o v rest ns ex,
     P rest (<[d := _get_values v]> ns) ex
       (consume rest (<[d := _get_values v]> ns) ex) ->
     P (O (Some (store d)) o None :: A v :: rest) ns ex
       (consume rest (<[d := _get_values v]> ns) ex)) ->
  (forall d o rest ns ex,
     (forall v rest', rest <> A v :: rest') ->
     P (O (Some (store d)) o None :: rest) ns ex (SystemExit 2)) ->
  forall pats ns ex, P pats ns ex (consume pats ns ex).
Proof.
  intros Hnil HA HD HU Hh Hhe Hse Hsv Hs2 pats.
  induction pats as [|x|x y l IHl IHyl] using pair_induction; intros ns ex.
  - apply Hnil.
  - destruct x as [t| |[[|d]|] o [e|]]; simpl;
      first [ apply HA, Hnil | apply HD, Hnil | apply HU, Hnil | apply Hh
            | apply Hhe | apply Hse, Hnil | apply Hs2; discriminate ].
  - destruct x as [t| |[[|d]|] o [e|]];
      try (first [ apply HA | apply HD | apply HU | apply Hse ]; apply IHyl);
      try apply Hh; try apply Hhe.
    destruct y as [v| |a' o' e'].
    + apply Hsv, IHl.
    + apply Hs2. discriminate.
    + apply Hs2. discriminate.
Qed.

(** An option entry of the pattern stems from an argument string that
    [_parse_optional] reads that way. *)
Lemma pattern_option argv : forall pats a o e,
  arg_strings_pattern argv = Some pats ->
  In (O a o e) pats ->
  exists t, In t argv /\ _parse_optional t = optional a o e.
Proof.
  induction argv as [|t argv IH]; simpl; intros pats a o e Hp Hin.
  - inversion Hp; subst. contradiction.
  - destruct (String.eqb t "--").
    + inversion Hp; subst. destruct Hin as [Hin|Hin]; [discriminate|].
      apply in_map_iff in Hin as (x & Hx & _). discriminate.
    + destruct (_parse_optional t) as [|a' o' e'|] eqn:Et; try discriminate;
        destruct (arg_strings_pattern argv) as [pats'|]; try discriminate;
        inversion Hp; subst;
        (destruct Hin as [Hin|Hin];
         [inversion Hin; subst; eauto
         |destruct (IH _ _ _ _ eq_refl Hin) as (t' & Ht' & E'); eauto]).
Qed.

Lemma finish_parsed ns extras args :
  finish ns extras = Parsed args ->
  extras = []
  /\ (forall d, In d required_dests -> is_Some (ns !! d))
  /\ ns !! "location" = Some (location args).
Proof.
  unfold finish. intros H.
  destruct (forallb _ required_dests) eqn:Hreq; [|discriminate].
  destruct extras; [|discriminate].
  split; [reflexivity|]. split.
  - intros d Hd. rewrite forallb_forall in Hreq.
    specialize (Hreq d Hd). apply bool_decide_eq_true in Hreq. exact Hreq.
  - destruct (ns !! "project_id"), (ns !! "location"), (ns !! "input_file"),
      (ns !! "output_file"), (ns !! "prompt"); try discriminate.
    inversion H; subst. reflexivity.
Qed.

Lemma finish_status ns extras status :
  finish ns extras = SystemExit status -> status = 2.
Proof.
  unfold finish. intros H.
  destruct (forallb _ required_dests); [|congruence].
  destruct extras; [|congruence].
  destruct (ns !! "project_id"), (ns !! "location"), (ns !! "input_file"),
    (ns !! "output_file"), (ns !! "prompt"); congruence.
Qed.

(** The parser exits with status 2, or with status 0 at a help option. *)
Lemma consume_status pats ns extras status :
  consume pats ns extras = SystemExit status ->
  status = 2 \/ (status = 0 /\ exists o e, In (O (Some help) o e) pats).
Proof.
  revert status.
  apply (consume_elim (fun pats _ _ r => forall status,
    r = SystemExit status ->
    status = 2 \/ (status = 0 /\ exists o e, In (O (Some help) o e) pats)));
    clear; intros.
  - left. eapply finish_status; eassumption.
  - destruct (H _ H0) as [|(? & o & e & ?)]; [auto|right]. split; [done|].
    exists o, e. by right.
  - destruct (H _ H0) as [|(? & o & e & ?)]; [auto|right]. split; [done|].
    exists o, e. by right.
  - destruct (H _ H0) as [|(? & o & e' & ?)]; [auto|right]. split; [done|].
    exists o, e'. by right.
  - right. split; [congruence|]. do 2 eexists. by left.
  - destruct (_ && _); [right|left; congruence].
    split; [congruence|]. do 2 eexists. by left.
  - destruct (H _ H0) as [|(? & o' & e' & ?)]; [auto|right]. split; [done|].
    exists o', e'. by right.
  - destruct (H _ H0) as [|(? & o' & e' & ?)]; [auto|right]. split; [done|].
    exists o', e'. by do 2 right.
  - left. congruence.
Qed.


(** Where no option stores a location, the one in the namespace stays. *)
Lemma consume_location_kept pats ns extras args x :
  consume pats ns extras = Parsed args ->
  (forall o e, ~ In (O (Some (store "location")) o e) pats) ->
  ns !! "location" = Some x ->
  location args = x.
Proof.
  revert args x.
  apply (consume_elim (fun pats ns _ r => forall args x,
    r = Parsed args ->
    (forall o e, ~ In (O (Some (store "location")) o e) pats) ->
    ns !! "location" = Some x -> location args = x));
    clear; intros.
  - apply finish_parsed in H as (_ & _ & Hl). congruence.
  - eapply H; eauto. intros o e Hin. eapply H1. right. exact Hin.
  - eapply H; eauto. intros o e Hin. eapply H1. right. exact Hin.
  - eapply H; eauto. intros o e' Hin. eapply H1. right. exact Hin.
  - discriminate.
  - destruct (_ && _); discriminate.
  - eapply H; eauto.
    + intros o' e' Hin. eapply H1. right. exact Hin.
    + rewrite lookup_insert_ne; [done|]. intros ->. eapply H1. by left.
  - eapply H; eauto.
    + intros o' e' Hin. eapply H1. do 2 right. exact Hin.
    + rewrite lookup_insert_ne; [done|]. intros ->. eapply H1. by left.
  - discriminate.
Qed.

(** A parse that succeeds has left nothing over: there is no [--]. *)
Lemma consume_no_extras pats ns extras args :
  consume pats ns extras = Parsed args ->
  extras = [] /\ ~ In DashDash pats.
Proof.
  revert args.
  apply (consume_elim (fun pats _ extras r => forall args,
    r = Parsed args -> extras = [] /\ ~ In DashDash pats));
    clear; intros.
  - apply finish_parsed in H as (-> & _). split; [done|]. intros [].
  - destruct (H _ H0) as [Habs _]. by destruct ex.
  - destruct (H _ H0) as [Habs _]. by destruct ex.
  - destruct (H _ H0) as [Habs _]. by destruct ex.
  - discriminate.
  - destruct (_ && _); discriminate.
  - destruct (H _ H0) as [-> Hno]. split; [done|].
    intros [?|?]; [discriminate|contradiction].
  - destruct (H _ H0) as [-> Hno]. split; [done|].
    intros [?|[?|?]]; [discriminate|discriminate|contradiction].
  - discriminate.
Qed.

(** A parse that succeeds on a pattern holding an option succeeds from
    that option on, in some namespace. *)
Lemma consume_from_option pats ns extras :
  forall l1 a o e l2 args,
  pats = (l1 ++ O a o e :: l2)%list ->
  consume pats ns extras = Parsed args ->
  exists ns' ex', consume (O a o e :: l2) ns' ex' = Parsed args.
Proof.
  apply (consume_elim (fun pats _ _ r => forall l1 a o e l2 args,
    pats = (l1 ++ O a o e :: l2)%list -> r = Parsed args ->
    exists ns' ex', consume (O a o e :: l2) ns' ex' = Parsed args));
    clear; intros.
  - by destruct l1.
  - destruct l1 as [|x l1]; simplify_eq/=. eauto.
  - destruct l1 as [|x l1]; simplify_eq/=. eauto.
  - destruct l1 as [|x l1]; simplify_eq/=; eauto; by exists ns, ex.
  - discriminate.
  - destruct (_ && _); discriminate.
  - destruct l1 as [|x l1]; simplify_eq/=; eauto; by exists ns, ex.
  - destruct l1 as [|x [|y l1]]; simplify_eq/=; eauto; by exists ns, ex.
  - discriminate.
Qed.

Lemma pattern_cons t post pats :
  arg_strings_pattern (t :: post) = Some pats ->
  ~ In DashDash pats ->
  String.eqb t "--" = false
  /\ exists rest,
       arg_strings_pattern post = Some rest
       /\ ((_parse_optional t = positional /\ pats = A t :: rest)
           \/ exists a o e,
                _parse_optional t = optional a o e /\ pats = O a o e :: rest).
Proof.
  simpl. intros Hp Hno.
  destruct (String.eqb t "--").
  - inversion Hp; subst. exfalso. apply Hno. by left.
  - split; [done|].
    destruct (_parse_optional t) as [|a o e|]; try discriminate;
      destruct (arg_strings_pattern post) as [rest|]; try discriminate;
      inversion Hp; subst; exists rest; (split; [done|]).
    + by left.
    + right. by exists a, o, e.
Qed.

Lemma pattern_split pre : forall t post pats,
  arg_strings_pattern (pre ++ t :: post) = Some pats ->
  ~ In DashDash pats ->
  exists p1 p2,
    pats = (p1 ++ p2)%list /\ arg_strings_pattern (t :: post) = Some p2.
Proof.
  induction pre as [|x pre IH]; intros t post pats Hp Hno.
  - exists [], pats. by split.
  - change ((x :: pre) ++ t :: post)%list
      with (x :: (pre ++ t :: post))%list in Hp.
    destruct (pattern_cons _ _ _ Hp Hno) as (_ & rest & Hrest & Hx).
    assert (Hno' : ~ In DashDash rest).
    { intros Hin. apply Hno.
      destruct Hx as [[_ ->]|(a & o & e & _ & ->)]; by right. }
    destruct (IH _ _ _ Hrest Hno') as (p1 & p2 & -> & Hp2).
    destruct Hx as [[_ ->]|(a & o & e & _ & ->)].
    + by exists (A x :: p1), p2.
    + by exists (O a o e :: p1), p2.
Qed.

Lemma not_given d argv pats :
  given d argv = false ->
  arg_strings_pattern argv = Some pats ->
  forall o e, ~ In (O (Some (store d)) o e) pats.
Proof.
  intros Hg Hp o e Hin.
  destruct (pattern_option _ _ _ _ _ Hp Hin) as (t & Ht & Et).
  assert (Hsel : selects d t = true).
  { unfold selects. rewrite Et. apply String.eqb_refl. }
  unfold given in Hg.
  assert (existsb (selects d) argv = true) by (apply existsb_exists; eauto).
  congruence.
Qed.


Lemma run_starts_with_init sdk fs p l i o q :
  exists rest,
    invoked (trace (snd (edit_image_mask_free sdk p l i o q (boot fs))))
    = vertexai_init p l :: rest.
Proof. run_inversion sdk fs p l i o q; eexists; reflexivity. Qed.

(** C3, as the code has it: when the command line gives no
    [--location], the location in the parsed arguments is "us-central1";
    when it gives [--location v], the last such [v] is the location
    instead; when it gives [--location=v], the location is what the
    parser stores for [v]: [v] itself, except for [--], where it is the
    empty list; and whatever location was parsed is the one [main] passes
    to [edit_image_mask_free], whose first call hands it to
    [vertexai.init]. *)
Theorem C3_location_default sdk fs argv args :
  parse_args argv = Parsed args ->
  (given "location" argv = false -> location args = str "us-central1")
  /\ (forall pre v post,
        argv = (pre ++ "--location" :: v :: post)%list ->
        given "location" post = false ->
        location args = str v)
  /\ (forall pre v post,
        argv = (pre ++ ("--location=" +:+ v) :: post)%list ->
        given "location" post = false ->
        location args = _get_values v
        /\ (v <> "--" -> location args = str v)
        /\ (v = "--" -> location args = empty_list))
  /\ main sdk argv (boot fs)
     = conclude (edit_image_mask_free sdk (project_id args) (location args)
                   (input_file args) (output_file args) (prompt args)
                   (boot fs))
  /\ exists rest,
       invoked (trace (snd (main sdk argv (boot fs))))
       = vertexai_init (project_id args) (location args) :: rest.
Proof.
  intros Hparse. split; [|split; [|split; [|split]]].
  - intros Hg. unfold parse_args in Hparse.
    destruct (arg_strings_pattern argv) as [pats|] eqn:Hp; [|discriminate].
    eapply consume_location_kept; [exact Hparse| |reflexivity].
    eapply not_given; eassumption.
  - intros pre v post -> Hg. unfold parse_args in Hparse.
    destruct (arg_strings_pattern _) as [pats|] eqn:Hp; [|discriminate].
    destruct (consume_no_extras _ _ _ _ Hparse) as [_ Hno].
    destruct (pattern_split _ _ _ _ Hp Hno) as (p1 & p2 & -> & Hp2).
    assert (Hno2 : ~ In DashDash p2).
    { intros Hin. apply Hno. apply in_or_app. by right. }
    destruct (pattern_cons _ _ _ Hp2 Hno2) as (_ & p3 & Hp3 & Hloc).
    destruct Hloc as [[Habs _]|(a & o & e & Hopt & ->)];
      [vm_compute in Habs; discriminate|].
    vm_compute in Hopt. inversion Hopt; subst a o e. clear Hopt.
    assert (Hno3 : ~ In DashDash p3).
    { intros Hin. apply Hno2. by right. }
    destruct (pattern_cons _ _ _ Hp3 Hno3) as (Hv & p4 & Hp4 & Hval).
    destruct (consume_from_option _ _ _ _ _ _ _ _ _ eq_refl Hparse)
      as (ns' & ex' & Hc).
    destruct Hval as [[_ ->]|(a & o & e & _ & ->)];
      [|simpl in Hc; discriminate].
    simpl in Hc.
    erewrite (consume_location_kept _ _ _ _ _ Hc);
      [|eapply not_given; eassumption|apply lookup_insert_eq].
    unfold _get_values. by rewrite Hv.
  - intros pre v post -> Hg. unfold parse_args in Hparse.
    destruct (arg_strings_pattern _) as [pats|] eqn:Hp; [|discriminate].
    destruct (consume_no_extras _ _ _ _ Hparse) as [_ Hno].
    destruct (pattern_split _ _ _ _ Hp Hno) as (p1 & p2 & -> & Hp2).
    assert (Hno2 : ~ In DashDash p2).
    { intros Hin. apply Hno. apply in_or_app. by right. }
    destruct (pattern_cons _ _ _ Hp2 Hno2) as (_ & p3 & Hp3 & Hloc).
    change (_parse_optional ("--location=" +:+ v))
      with (optional (Some (store "location")) "--location" (Some v))
      in Hloc.
    destruct Hloc as [[Habs _]|(a & o & e & Hopt & ->)]; [discriminate|].
    inversion Hopt; subst a o e. clear Hopt.
    destruct (consume_from_option _ _ _ _ _ _ _ _ _ eq_refl Hparse)
      as (ns' & ex' & Hc).
    simpl in Hc.
    erewrite (consume_location_kept _ _ _ _ _ Hc);
      [|eapply not_given; eassumption|apply lookup_insert_eq].
    split; [reflexivity|]. unfold _get_values.
    destruct (String.eqb_spec v "--") as [->|Hne]; split; done.
  - by apply main_parsed.
  - rewrite (main_parsed _ _ _ _ Hparse), conclude_world.
    apply run_starts_with_init.
Qed.


Lemma C3_location_default_witness :
  location {| project_id := str "my-project"; location := str "us-central1";
              input_file := str "my-input.png";
              output_file := str "my-output.png"; prompt := str "a dog" |}
  = str "us-central1"
  /\ location {| project_id := str "my-project";
                 location := str "europe-west4";
                 input_file := str "my-input.png";
                 output_file := str "my-output.png"; prompt := str "a dog" |}
     = str "europe-west4".
Proof.
  split.
  - apply (proj1 (C3_location_default (answering [sample_image]) sample_files
             ["--project_id"; "my-project"; "--input_file"; "my-input.png";
              "--output_file"; "my-output.png"; "--prompt"; "a dog"] _
             eq_refl)).
    vm_compute. reflexivity.
  - apply (proj1 (proj2 (C3_location_default (answering [sample_image])
             sample_files
             ["--project_id"; "my-project"; "--location"; "europe-west4";
              "--input_file"; "my-input.png";
              "--output_file"; "my-output.png"; "--prompt"; "a dog"] _
             eq_refl))
             ["--project_id"; "my-project"] "europe-west4"
             ["--input_file"; "my-input.png";
              "--output_file"; "my-output.png"; "--prompt"; "a dog"]).
    + reflexivity.
    + vm_compute. reflexivity.
Defined.


(** C3 as the specification words it fails: with [--location=--] the
    explicit value is [--], but the parser stores the empty list, and
    that is what is passed on. *)
Lemma C3_explicit_location_passed_counterexample :
  ~ explicit_location_passed
      ["--project_id"; "my-project"; "--input_file"; "my-input.png";
       "--output_file"; "my-output.png"; "--prompt"; "a dog"] "--" [].
Proof.
  intros H.
  specialize (H {| project_id := str "my-project"; location := empty_list;
                   input_file := str "my-input.png";
                   output_file := str "my-output.png";
                   prompt := str "a dog" |}).
  simpl in H. discriminate H; reflexivity.
Qed.


(** *** What a run leaves alone *)



(** *** What the service is sent *)

(** X2: every edit request carries the caller's prompt unchanged.  Its
    base image is what the load of the input location gave: for a
    location the SDK reads as a Cloud Storage URI, that URI, with no file
    read; for a local path, the bytes that the file held when the process
    started, which are not empty. *)
Theorem edit_request_payload sdk fs p l i o q m b q' s g n :
  In (edit_image m b q' s g n)
     (invoked (trace (snd (edit_image_mask_free sdk p l i o q (boot fs))))) ->
  q' = q
  /\ exists path,
       i = str path
       /\ ((exists uri,
              sdk_gcs_uri sdk path = Some uri /\ b = Image_of_gcs uri)
           \/ (exists content,
                 sdk_gcs_uri sdk path = None
                 /\ fs !! path = Some content
                 /\ content <> []
                 /\ b = Image_of_bytes content)).
Proof.
  intros Hin.
  run_inversion sdk fs p l i o q;
    repeat (destruct Hin as [Hin|Hin]; try discriminate); try contradiction;
    inversion Hin; subst; (split; [done|]);
    match goal with H : load_answer _ _ _ = Ok _ |- _ =>
      apply load_answer_ok in H
        as (source & -> & [(uri & ? & ->)|(? & ? & Hb & ?)]) end;
    exists source; (split; [done|]);
    first [ left; eauto; fail
          | right; eexists; repeat split; eauto ].
Qed.

Lemma edit_request_payload_witness :
  str "a dog" = str "a dog"
  /\ exists path,
       str "gs://my-bucket/my-input.png" = str path
       /\ ((exists uri,
              gs_uri path = Some uri
              /\ Image_of_gcs "gs://my-bucket/my-input.png"
                 = Image_of_gcs uri)
           \/ (exists content,
                 gs_uri path = None
                 /\ sample_files !! path = Some content
                 /\ content <> []
                 /\ Image_of_gcs "gs://my-bucket/my-input.png"
                    = Image_of_bytes content)).
Proof.
  apply (edit_request_payload (answering [sample_image]) sample_files
           "my-project" "us-central1" "gs://my-bucket/my-input.png"
           "my-output.png" "a dog"
           {| _endpoint_name := "imagegeneration@002" |}
           (Image_of_gcs "gs://my-bucket/my-input.png") "a dog" 1 21 1).
  vm_compute. find_in.
Defined.

(** X3: nothing keeps the output path apart from the input path.  When
    both are the same local path and the run succeeds, the service was
    sent the bytes the file held before, and the file now holds what the
    save of the first generated image wrote instead. *)
Theorem edit_in_place sdk fs p l (path : string) q r w' :
  sdk_gcs_uri sdk path = None ->
  edit_image_mask_free sdk p l path path q (boot fs) = (Ok r, w') ->
  exists original m first rest written w,
    fs !! path = Some original
    /\ In (edit_image m (Image_of_bytes original) q 1 21 1)
          (invoked (trace w'))
    /\ images r = first :: rest
    /\ sdk_save sdk w first path = Ok written
    /\ files w' !! path = Some written.
Proof.
  intros Hlocal E. run_inversion sdk fs p l (str path) (str path) q;
    try discriminate.
  inversion E; subst.
  match goal with H : load_answer _ _ _ = Ok _ |- _ =>
    apply load_answer_ok in H
      as (path' & [= <-] & [(uri & ? & ->)|(? & Hfile & Hb & ?)]) end;
    [congruence|].
  match goal with H : save_answer _ _ _ _ = Ok _ |- _ =>
    apply save_answer_ok in H as ([= <-] & Hsave & _) end.
  do 6 eexists. split; [exact Hfile|]. split; [rewrite <- Hb; find_in|].
  split; [eassumption|]. split; [exact Hsave|]. apply lookup_insert_eq.
Qed.

Lemma edit_in_place_witness :
  files (snd (edit_image_mask_free (answering [sample_image]) "my-project"
                "us-central1" "my-input.png" "my-input.png" "a dog"
                (boot sample_files))) !! "my-input.png"
  = Some (encoded sample_image).
Proof.
  destruct (edit_in_place (answering [sample_image]) sample_files
              "my-project" "us-central1" "my-input.png" "a dog"
              {| images := [sample_image] |}
              (snd (edit_image_mask_free (answering [sample_image])
                      "my-project" "us-central1" "my-input.png"
                      "my-input.png" "a dog" (boot sample_files))))
    as (original & m & first & rest & written & w & _ & _ & Himgs & Hsave
        & Hfile).
  - reflexivity.
  - vm_compute. reflexivity.
  - simpl in Himgs, Hsave. inversion Himgs; subst.
    inversion Hsave; subst. exact Hfile.
Defined.

(** *** A cooperative environment *)



(** *** Command lines in the documented form *)

Lemma plain_value v :
  starts_with_dash v = false ->
  String.eqb v "--" = false
  /\ _parse_optional v = positional
  /\ _get_values v = str v.
Proof.
  intros Hv. destruct v as [|c v]; [by repeat split|].
  simpl in Hv.
  assert (Hne : String.eqb (String c v) "--" = false).
  { simpl. by rewrite Hv. }
  split; [exact Hne|]. split.
  - unfold _parse_optional. by rewrite Hv.
  - unfold _get_values. by rewrite Hne.
Qed.

Lemma known_flag d :
  In d all_dests ->
  String.eqb ("--" +:+ d) "--" = false
  /\ _parse_optional ("--" +:+ d)
     = optional (Some (store d)) ("--" +:+ d) None.
Proof.
  simpl. intros [<-|[<-|[<-|[<-|[<-|[]]]]]]; split; reflexivity.
Qed.

Lemma pattern_command_line kvs rest :
  well_formed kvs ->
  arg_strings_pattern (command_line kvs ++ rest)
  = app (pattern_of kvs) <$> arg_strings_pattern rest.
Proof.
  intros Hwf. induction Hwf as [|[d v] kvs [Hd Hv] _ IH]; simpl.
  - by destruct (arg_strings_pattern rest).
  - destruct (known_flag d Hd) as [Hne Hopt].
    destruct (plain_value v Hv) as (Hne' & Hpos & _).
    simpl in *. rewrite Hne, Hopt, Hne', Hpos.
    change (flat_map _ kvs) with (command_line kvs). rewrite IH.
    by destruct (arg_strings_pattern rest).
Qed.

Lemma consume_command_line kvs rest : forall ns extras,
  well_formed kvs ->
  consume (pattern_of kvs ++ rest) ns extras
  = consume rest (store_all ns kvs) extras.
Proof.
  intros ns extras Hwf. revert ns.
  induction Hwf as [|[d v] kvs [Hd Hv] _ IH]; intros ns; [done|].
  destruct (plain_value v Hv) as (_ & _ & Hval).
  simpl in *. rewrite Hval. apply IH.
Qed.

(** Parsing a documented command line stores the values in order and
    goes on to the closing checks. *)
Lemma parse_command_line kvs :
  well_formed kvs ->
  parse_args (command_line kvs) = finish (store_all defaults kvs) [].
Proof.
  intros Hwf. unfold parse_args.
  rewrite <- (app_nil_r (command_line kvs)).
  rewrite pattern_command_line by done. simpl.
  rewrite consume_command_line by done. reflexivity.
Qed.

(** X5: the usage of the module docstring works as written.  When no
    value begins with [-] (the empty string included), the five values
    are parsed unchanged and [main] runs [edit_image_mask_free] on
    exactly them; the prompt is not validated in any way. *)
Theorem usage_parses p l i o q :
  starts_with_dash p = false -> starts_with_dash l = false ->
  starts_with_dash i = false -> starts_with_dash o = false ->
  starts_with_dash q = false ->
  let argv := ["--project_id"; p; "--location"; l; "--input_file"; i;
               "--output_file"; o; "--prompt"; q] in
  parse_args argv
  = Parsed {| project_id := str p; location := str l; input_file := str i;
              output_file := str o; prompt := str q |}
  /\ forall sdk w,
       main sdk argv w = conclude (edit_image_mask_free sdk p l i o q w).
Proof.
  intros Hp Hl Hi Ho Hq argv.
  assert (Hparse : parse_args argv
    = Parsed {| project_id := str p; location := str l; input_file := str i;
                output_file := str o; prompt := str q |}).
  { subst argv.
    change ["--project_id"; p; "--location"; l; "--input_file"; i;
            "--output_file"; o; "--prompt"; q]
      with (command_line [("project_id", p); ("location", l);
                          ("input_file", i); ("output_file", o);
                          ("prompt", q)]).
    rewrite parse_command_line.
    - reflexivity.
    - repeat (constructor; [split; [find_in|assumption]|]). constructor. }
  split; [exact Hparse|].
  intros sdk w. by rewrite (main_parsed _ _ _ _ Hparse).
Qed.

Lemma usage_parses_witness :
  parse_args ["--project_id"; "my-project"; "--location"; "europe-west4";
              "--input_file"; "my-input.png"; "--output_file";
              "my-output.png"; "--prompt"; ""]
  = Parsed {| project_id := str "my-project"; location := str "europe-west4";
              input_file := str "my-input.png";
              output_file := str "my-output.png"; prompt := str "" |}.
Proof.
  apply (usage_parses "my-project" "europe-west4" "my-input.png"
           "my-output.png" ""); reflexivity.
Defined.

Lemma store_all_permutation kvs kvs' :
  kvs ≡ₚ kvs' ->
  NoDup kvs.*1 ->
  forall ns, store_all ns kvs = store_all ns kvs'.
Proof.
  induction 1 as [|x l l' Hperm IH|x y l|l l' l'' H1 IH1 H2 IH2];
    intros Hnd ns.
  - reflexivity.
  - simpl. apply IH. by apply NoDup_cons in Hnd as [_ Hnd].
  - simpl. f_equal. apply insert_insert_ne.
    apply NoDup_cons in Hnd as [Hnd _].
    apply not_elem_of_cons in Hnd as [Hnd _]. congruence.
  - rewrite IH1 by done. apply IH2. by rewrite <- H1.
Qed.

(** X6: the order of the flags does not matter.  Two documented command
    lines that give the same flags, each once, with the same values in a
    different order parse to the same result and make [main] behave the
    same. *)
Theorem flag_order_irrelevant kvs kvs' :
  well_formed kvs ->
  NoDup kvs.*1 ->
  kvs ≡ₚ kvs' ->
  parse_args (command_line kvs) = parse_args (command_line kvs')
  /\ forall sdk w,
       main sdk (command_line kvs) w = main sdk (command_line kvs') w.
Proof.
  intros Hwf Hnd Hperm.
  assert (Hwf' : well_formed kvs').
  { unfold well_formed. by rewrite <- Hperm. }
  assert (E : parse_args (command_line kvs) = parse_args (command_line kvs')).
  { rewrite !parse_command_line by done.
    by rewrite (store_all_permutation kvs kvs'). }
  split; [exact E|]. intros sdk w. unfold main. by rewrite E.
Qed.

Lemma flag_order_irrelevant_witness :
  parse_args ["--prompt"; "a dog"; "--output_file"; "my-output.png";
              "--project_id"; "my-project"; "--input_file"; "my-input.png"]
  = parse_args ["--project_id"; "my-project"; "--input_file"; "my-input.png";
                "--output_file"; "my-output.png"; "--prompt"; "a dog"].
Proof.
  apply (flag_order_irrelevant
           [("prompt", "a dog"); ("output_file", "my-output.png");
            ("project_id", "my-project"); ("input_file", "my-input.png")]
           [("project_id", "my-project"); ("input_file", "my-input.png");
            ("output_file", "my-output.png"); ("prompt", "a dog")]).
  - repeat (constructor; [split; [find_in|reflexivity]|]). constructor.
  - compute_done.
  - apply (Permutation_cons_app
             [("project_id", "my-project"); ("input_file", "my-input.png");
              ("output_file", "my-output.png")] []).
    apply (perm_trans (l' := [("project_id", "my-project");
                              ("output_file", "my-output.png");
                              ("input_file", "my-input.png")])).
    + apply perm_swap.
    + apply perm_skip. apply perm_swap.
Defined.

(** The parser exits with status 2, or with status 0 when an argument
    asks for help. *)
Lemma parse_args_status argv status :
  parse_args argv = SystemExit status ->
  status = 2 \/ (status = 0 /\ existsb asks_help argv = true).
Proof.
  unfold parse_args.
  destruct (arg_strings_pattern argv) as [pats|] eqn:Hp;
    [|intros [= <-]; by left].
  intros Hc.
  destruct (consume_status _ _ _ _ Hc) as [|(-> & o & e & Hin)]; [auto|].
  right. split; [done|].
  destruct (pattern_option _ _ _ _ _ Hp Hin) as (t & Ht & Et).
  apply existsb_exists. exists t. split; [done|].
  unfold asks_help. by rewrite Et.
Qed.



(** A parse that succeeds has met no option it does not know. *)
Lemma consume_no_unknown pats ns extras args :
  consume pats ns extras = Parsed args ->
  extras = [] /\ forall t e, ~ In (O None t e) pats.
Proof.
  revert args.
  apply (consume_elim (fun pats _ extras r => forall args,
    r = Parsed args -> extras = [] /\ forall t e, ~ In (O None t e) pats));
    clear; intros.
  - apply finish_parsed in H as (-> & _). split; [done|]. intros ? ? [].
  - destruct (H _ H0) as [Habs _]. by destruct ex.
  - destruct (H _ H0) as [Habs _]. by destruct ex.
  - destruct (H _ H0) as [Habs _]. by destruct ex.
  - discriminate.
  - destruct (_ && _); discriminate.
  - destruct (H _ H0) as [-> Hno]. split; [done|].
    intros t' e' [?|Hin]; [discriminate|]. by eapply Hno.
  - destruct (H _ H0) as [-> Hno]. split; [done|].
    intros t' e' [?|[?|Hin]]; [discriminate|discriminate|]. by eapply Hno.
  - discriminate.
Qed.

(** Where an argument string of the command line ends up in the
    pattern. *)
Lemma pattern_member argv : forall pats t,
  arg_strings_pattern argv = Some pats ->
  In t argv ->
  In DashDash pats
  \/ (_parse_optional t = positional /\ In (A t) pats)
  \/ (exists a o e, _parse_optional t = optional a o e /\ In (O a o e) pats).
Proof.
  induction argv as [|x argv IH]; intros pats t Hp Hin; [contradiction|].
  simpl in Hp. destruct (String.eqb x "--").
  - inversion Hp; subst. left. by left.
  - destruct (_parse_optional x) as [|a o e|] eqn:Ex; try discriminate;
      destruct (arg_strings_pattern argv) as [pats'|] eqn:Hp';
      try discriminate; inversion Hp; subst; clear Hp;
      (destruct Hin as [->|Hin];
       [|destruct (IH _ _ eq_refl Hin)
           as [?|[[? ?]|(a' & o' & e' & ? & ?)]];
         [left; by right
         |right; left; split; [done|by right]
         |right; right; exists a', o', e'; split; [done|by right]]]).
    + right. left. split; [done|by left].
    + right. right. exists a, o, e. split; [done|by left].
Qed.

(** X8: the script declares no positional arguments and [parse_args]
    accepts nothing it does not know.  A command line that holds the
    separator [--] or an option the parser does not have never reaches
    [edit_image_mask_free]: the process ends in the parser, with the world
    as it was. *)
Theorem unknown_argument_rejected sdk w argv t :
  In t argv ->
  t = "--" \/ unknown_option t = true ->
  exists status,
    parse_args argv = SystemExit status
    /\ main sdk argv w = (Exited status, w)
    /\ (status = 2 \/ (status = 0 /\ existsb asks_help argv = true)).
Proof.
  intros Hin Ht.
  assert (Hexit : exists status, parse_args argv = SystemExit status).
  { destruct (parse_args argv) as [args|status] eqn:Hparse; [|eauto].
    exfalso. unfold parse_args in Hparse.
    destruct (arg_strings_pattern argv) as [pats|] eqn:Hp; [|discriminate].
    destruct (consume_no_extras _ _ _ _ Hparse) as [_ Hdash].
    destruct (consume_no_unknown _ _ _ _ Hparse) as [_ Hunknown].
    destruct (pattern_member _ _ _ Hp Hin)
      as [?|[[Hpos _]|(a & o & e & Hopt & Hino)]]; [done| |].
    - destruct Ht as [->|Ht]; [vm_compute in Hpos; discriminate|].
      unfold unknown_option in Ht. rewrite Hpos in Ht. discriminate.
    - destruct Ht as [->|Ht]; [vm_compute in Hopt; discriminate|].
      unfold unknown_option in Ht. rewrite Hopt in Ht.
      destruct a; [discriminate|]. by eapply Hunknown. }
  destruct Hexit as [status Hparse]. exists status.
  split; [done|]. split.
  - unfold main. by rewrite Hparse.
  - by apply parse_args_status.
Qed.

Lemma unknown_argument_rejected_witness :
  exists status,
    parse_args ["--project_id"; "my-project"; "--input_file"; "my-input.png";
                "--output_file"; "my-output.png"; "--prompt"; "a dog";
                "--seed"; "7"]
    = SystemExit status
    /\ main (answering [sample_image])
         ["--project_id"; "my-project"; "--input_file"; "my-input.png";
          "--output_file"; "my-output.png"; "--prompt"; "a dog";
          "--seed"; "7"] (boot sample_files)
       = (Exited status, boot sample_files)
    /\ (status = 2
        \/ (status = 0
            /\ existsb asks_help
                 ["--project_id"; "my-project"; "--input_file";
                  "my-input.png"; "--output_file"; "my-output.png";
                  "--prompt"; "a dog"; "--seed"; "7"] = true)).
Proof.
  apply (unknown_argument_rejected (answering [sample_image])
           (boot sample_files) _ "--seed").
  - find_in.
  - right. reflexivity.
Defined.

(** X9: a value glued to its flag with [=] is taken as it stands,
    whatever it looks like: a prompt that begins with [-], or is empty, is
    passed on unchanged.  The one exception is the value [--], for which
    the parser stores an empty list. *)
Theorem glued_prompt_verbatim p i o q :
  starts_with_dash p = false -> starts_with_dash i = false ->
  starts_with_dash o = false ->
  parse_args ["--project_id"; p; "--input_file"; i; "--output_file"; o;
              "--prompt=" +:+ q]
  = Parsed {| project_id := str p; location := str "us-central1";
              input_file := str i; output_file := str o;
              prompt := _get_values q |}
  /\ (q <> "--" -> _get_values q = str q).
Proof.
  intros Hp Hi Ho. split.
  - change ["--project_id"; p; "--input_file"; i; "--output_file"; o;
            "--prompt=" +:+ q]
      with (command_line [("project_id", p); ("input_file", i);
                          ("output_file", o)] ++ ["--prompt=" +:+ q])%list.
    assert (Hwf : well_formed [("project_id", p); ("input_file", i);
                               ("output_file", o)]).
    { repeat (constructor; [split; [find_in|assumption]|]). constructor. }
    unfold parse_args. rewrite pattern_command_line by done.
    change (arg_strings_pattern ["--prompt=" +:+ q])
      with (Some [O (Some (store "prompt")) "--prompt" (Some q)]).
    unfold fmap, option_fmap, option_map.
    rewrite consume_command_line by done. reflexivity.
  - intros Hq. unfold _get_values.
    destruct (String.eqb_spec q "--"); [done|reflexivity].
Qed.

Lemma glued_prompt_verbatim_witness :
  parse_args ["--project_id"; "my-project"; "--input_file"; "my-input.png";
              "--output_file"; "my-output.png"; "--prompt=-x"]
  = Parsed {| project_id := str "my-project"; location := str "us-central1";
              input_file := str "my-input.png";
              output_file := str "my-output.png"; prompt := str "-x" |}.
Proof.
  apply (glued_prompt_verbatim "my-project" "my-input.png" "my-output.png"
           "-x"); reflexivity.
Defined.

(** X10: a value that reads as an option cannot follow its flag as an
    argument of its own.  After any documented flags, a flag followed by
    such a value ([-x], [--help], [--]) ends the process with status 2,
    whatever comes after: [--prompt --help] is a usage error, not a
    request for help. *)
Theorem option_like_value_rejected sdk w kvs d v rest :
  well_formed kvs ->
  In d all_dests ->
  v = "--" \/ option_like v = true ->
  let argv := (command_line kvs ++ ("--" +:+ d) :: v :: rest)%list in
  parse_args argv = SystemExit 2
  /\ main sdk argv w = (Exited 2, w).
Proof.
  intros Hwf Hd Hv argv.
  assert (Hparse : parse_args argv = SystemExit 2).
  { subst argv. unfold parse_args.
    rewrite pattern_command_line by done.
    destruct (known_flag d Hd) as [Hne Hopt].
    change (arg_strings_pattern (("--" +:+ d) :: v :: rest))
      with (if String.eqb ("--" +:+ d) "--"
            then Some (DashDash :: map A (v :: rest))
            else match _parse_optional ("--" +:+ d) with
                 | ambiguous => None
                 | positional =>
                     cons (A ("--" +:+ d))
                       <$> arg_strings_pattern (v :: rest)
                 | optional a o e =>
                     cons (O a o e) <$> arg_strings_pattern (v :: rest)
                 end).
    rewrite Hne, Hopt.
    destruct (arg_strings_pattern (v :: rest)) as [pats|] eqn:Hp;
      [|reflexivity].
    unfold fmap, option_fmap, option_map.
    rewrite consume_command_line by done.
    simpl in Hp. destruct (String.eqb_spec v "--") as [->|Hne'].
    - inversion Hp; subst. reflexivity.
    - destruct Hv as [->|Hv]; [done|]. unfold option_like in Hv.
      destruct (_parse_optional v) as [|a o e|]; try discriminate.
      destruct (arg_strings_pattern rest); inversion Hp; subst.
      reflexivity. }
  split; [exact Hparse|]. unfold main. by rewrite Hparse.
Qed.

Lemma option_like_value_rejected_witness :
  parse_args ["--project_id"; "my-project"; "--input_file"; "my-input.png";
              "--output_file"; "my-output.png"; "--prompt"; "--help"]
  = SystemExit 2.
Proof.
  apply (option_like_value_rejected (answering [sample_image])
           (boot sample_files)
           [("project_id", "my-project"); ("input_file", "my-input.png");
            ("output_file", "my-output.png")] "prompt" "--help" []).
  - repeat (constructor; [split; [find_in|reflexivity]|]). constructor.
  - find_in.
  - right. reflexivity.
Defined.
